(** * Cookie-run wiki: derived-view pipeline and tier-list engine

    A shallow embedding of the pure core of [src/App.jsx]: the tier-list
    drag-and-drop reconciliation ([handleDrop]), the tier editor
    ([addTier], [handleTierChange]), the snapshot handlers, the search
    filter, the sort comparator, the cookie-to-tier lookup table and the
    cookie deletion handler.

    Modelling conventions.
    - JavaScript strings are [string]; document identifiers, tier
      identifiers, names and colour tokens are all strings.
    - A JavaScript array is a [list]; [Array.prototype.filter] is the list
      filter, [Array.prototype.map] is [fmap], [push] appends at the end.
    - A plain object used as a dictionary ([cookieTiersMap],
      [groupedCookies]) is a [gmap string _] of its own properties
      together with the properties it inherits from [Object.prototype];
      what the program assigns to the inherited objects is kept in an
      explicit environment, and a [TypeError] is [None].
    - [String.prototype.toLowerCase] is a parameter ([HostStrings]).
    - Objects that the code shares and assigns into (the default tiers)
      live in an explicit store; everything else is passed by value.
    - [Date.now()] and [localeCompare] are arguments.
    - Writes to the remote store are recorded as an explicit log. *)

From stdpp Require Import base list sorting strings pretty gmap.
From Stdlib Require Import Ascii ZArith Lia.

Local Open Scope string_scope.

(** ** Data model *)

(** A tier object [{ id, name, color, cookieIds }]. *)
Record Tier := mkTier {
  tier_id : string;
  tier_name : string;
  tier_color : string;
  cookieIds : list string
}.

(** A tier-list document [{ id, name, tiers }]. *)
Record TierList := mkTierList {
  list_id : string;
  list_name : string;
  tiers : list Tier
}.

Global Instance Tier_eq_dec : EqDecision Tier.
Proof. solve_decision. Defined.

Global Instance TierList_eq_dec : EqDecision TierList.
Proof. solve_decision. Defined.

(** [const defaultTiers = [...]] as it is when the module is loaded. *)
Definition defaultTiers : list Tier :=
  [ mkTier "S" "S" "bg-red-500" [];
    mkTier "A" "A" "bg-orange-500" [];
    mkTier "B" "B" "bg-yellow-500" [];
    mkTier "C" "C" "bg-green-500" [] ].

Definition defaultPvpTierList : TierList :=
  mkTierList "pvp-tier-list" "PvP Tier List" defaultTiers.
Definition defaultPveTierList : TierList :=
  mkTierList "pve-tier-list" "PvE Tier List" defaultTiers.

(** ** Tier List Engine: [handleDrop] *)

(** [{ ...tier, cookieIds: tier.cookieIds.filter(id => id !== c) }] *)
Definition withoutCookie (c : string) (t : Tier) : Tier :=
  mkTier (tier_id t) (tier_name t) (tier_color t)
         (filter (λ i, i ≠ c) (cookieIds t)).

(** [tier.cookieIds.push(c)] on one tier object. *)
Definition pushCookie (c : string) (t : Tier) : Tier :=
  mkTier (tier_id t) (tier_name t) (tier_color t) (cookieIds t ++ [c]).

(** [!draggedCookieId]: [null] and the empty string are falsy. *)
Definition falsy (dragged : option string) : bool :=
  match dragged with
  | None => true
  | Some c => bool_decide (c = "")
  end.

(** The body of [handleDrop] after the early return: the list of tiers
    handed to [onSave].  [newTiers.find] yields the first tier with the
    target identifier; the [push] mutates that one (fresh) object, which
    is the element of [newTiers] at the index found. *)
Definition dropTiers (c targetTierId : string) (ts : list Tier) : list Tier :=
  let newTiers := withoutCookie c <$> ts in
  if bool_decide (targetTierId ≠ "unranked") then
    match list_find (λ t, tier_id t = targetTierId) newTiers with
    | Some (k, _) => alter (pushCookie c) k newTiers
    | None => newTiers
    end
  else newTiers.

(** [handleDrop]: [None] when nothing is saved (no dragged identifier),
    otherwise the document passed to [onSave]. *)
Definition handleDrop (dragged : option string) (targetTierId : string)
    (activeTierList : TierList) : option TierList :=
  match dragged with
  | None => None
  | Some c =>
      if falsy dragged then None
      else Some (mkTierList (list_id activeTierList) (list_name activeTierList)
                            (dropTiers c targetTierId (tiers activeTierList)))
  end.

(** [moveCookie(list, cookieId, target)]: the tier list after dragging
    [cookieId] and dropping it on [target]; the list stays as it is when
    [handleDrop] returns without saving. *)
Definition moveCookie (l : TierList) (cookieId targetTierId : string) : TierList :=
  default l (handleDrop (Some cookieId) targetTierId l).

(** The successive tier lists produced by a sequence of drops. *)
Fixpoint moveTrace (l : TierList) (ops : list (string * string)) : list TierList :=
  match ops with
  | [] => []
  | (c, target) :: ops' =>
      let l' := moveCookie l c target in l' :: moveTrace l' ops'
  end.

(** Per-list invariant: a cookie identifier occurs in the cookie-id
    sequence of at most one tier (tiers told apart by position). *)
Definition tier_invariant (ts : list Tier) : Prop :=
  ∀ i j ti tj c,
    ts !! i = Some ti → ts !! j = Some tj →
    c ∈ cookieIds ti → c ∈ cookieIds tj → i = j.

(** The cookie is placed in some tier of the list. *)
Definition ranked (c : string) (ts : list Tier) : Prop :=
  ∃ t, t ∈ ts ∧ c ∈ cookieIds t.

(** ** Tier editor: [addTier] *)

(** [addTier], with the reading of [Date.now()] (milliseconds since the
    epoch) as an argument; [Number.prototype.toString] of an integer is
    its decimal rendering. *)
Definition newTier (now : Z) : Tier :=
  mkTier (pretty now) "New Tier" "bg-gray-500" [].

Definition addTier (now : Z) (ts : list Tier) : list Tier :=
  (ts ++ [newTier now])%list.

(** The identifiers of the seed tiers. *)
Definition seedIds : list string := tier_id <$> defaultTiers.

(** ** Tier objects shared by reference

    [defaultTiers] is one module-level array of four tier objects; both
    default tier lists, the application state and the tier editor hold
    references to these same objects.  The functions below that assign
    into a tier object, or hand out [defaultTiers], are modelled over a
    store of tier objects addressed by position.  ([handleDrop],
    [handleDelete] and [addTier] build fresh objects and only read the
    existing ones, so they are functions of the values read.) *)

(** The object store right after the module is loaded, and the array
    [defaultTiers] of references into it. *)
Definition storeAtLoad : list Tier := defaultTiers.
Definition defaultTiersRef : list nat := [0; 1; 2; 3]%nat.

(** A tier-list object whose [tiers] array holds references. *)
Record TierListObj := mkTierListObj {
  obj_id : string;
  obj_name : string;
  obj_tiers : list nat
}.

Definition defaultPvpObj : TierListObj :=
  mkTierListObj "pvp-tier-list" "PvP Tier List" defaultTiersRef.
Definition defaultPveObj : TierListObj :=
  mkTierListObj "pve-tier-list" "PvE Tier List" defaultTiersRef.

(** Reading the tiers of a tier-list object through the store. *)
Definition readTiers (h : list Tier) (o : TierListObj) : option (list Tier) :=
  mapM (λ r, h !! r) (obj_tiers o).

(** A snapshot document: [doc.id] and [doc.data()].  In
    [{ id: doc.id, ...doc.data() }] a stored [id] field overrides
    [doc.id]. *)
Record Doc (A : Type) := mkDoc {
  doc_id : string;
  stored_id : option string;
  doc_data : A
}.
Arguments mkDoc {A} _ _ _.
Arguments doc_id {A} _.
Arguments stored_id {A} _.
Arguments doc_data {A} _.

Definition merged_id {A} (d : Doc A) : string := default (doc_id d) (stored_id d).

(** The [tiers] field of a persisted tier list: an array of tier
    objects, or anything else (absent, or the legacy object shape). *)
Inductive TiersField :=
  | TiersArray (ts : list Tier)
  | NotAnArray.

Record TierListData := mkTierListData {
  data_name : string;
  data_tiers : TiersField
}.

(** [data.find(d => d.id === key) || dflt], followed by
    [if (!Array.isArray(x.tiers)) x.tiers = defaultTiers].  The tier
    objects of a delivered array are new objects. *)
Definition loadTierList (h : list Tier) (key : string)
    (data : list (Doc TierListData)) (dflt : TierListObj) : list Tier * TierListObj :=
  match list_find (λ d, merged_id d = key) data with
  | None => (h, dflt)
  | Some (_, d) =>
      match data_tiers (doc_data d) with
      | TiersArray ts =>
          ((h ++ ts)%list, mkTierListObj (merged_id d) (data_name (doc_data d))
                                  (seq (length h) (length ts)))
      | NotAnArray =>
          (h, mkTierListObj (merged_id d) (data_name (doc_data d)) defaultTiersRef)
      end
  end.

(** The [tierlists] branch of the snapshot handler: the new store and
    the state [{ pvp, pve }] given to [setTierLists]. *)
Definition onTierListsSnapshot (h : list Tier) (data : list (Doc TierListData))
    : list Tier * (TierListObj * TierListObj) :=
  let '(h1, pvpData) := loadTierList h "pvp-tier-list" data defaultPvpObj in
  let '(h2, pveData) := loadTierList h1 "pve-tier-list" data defaultPveObj in
  (h2, (pvpData, pveData)).

(** The two fields the tier editor assigns. *)
Inductive TierField := FieldName | FieldColor.

Definition setField (f : TierField) (v : string) (t : Tier) : Tier :=
  match f with
  | FieldName => mkTier (tier_id t) v (tier_color t) (cookieIds t)
  | FieldColor => mkTier (tier_id t) (tier_name t) v (cookieIds t)
  end.

(** [handleTierChange]: [newTiers = [...tiers]] copies the array of
    references, and [newTiers[index][field] = value] assigns into the
    object referred to.  [None] is the [TypeError] of an index outside
    the array. *)
Definition handleTierChange (h : list Tier) (editorTiers : list nat)
    (index : nat) (f : TierField) (v : string) : option (list Tier * list nat) :=
  r ← editorTiers !! index;
  _ ← h !! r;
  Some (alter (setField f v) r h, editorTiers).

(** The document the editor's [handleSave] passes to [onSave]:
    [{ ...tierList, tiers }]. *)
Definition editorSave (h : list Tier) (o : TierListObj) (editorTiers : list nat)
    : option (Doc TierListData) :=
  ts ← mapM (λ r, h !! r) editorTiers;
  Some (mkDoc (obj_id o) (Some (obj_id o)) (mkTierListData (obj_name o) (TiersArray ts))).

(** ** Cookies and the cookies snapshot *)

(** The [createdAt] field: absent, a JavaScript [Date] (the built-in
    default cookie), or a store timestamp, the only shape with a
    [toDate] method. *)
Inductive Created :=
  | NoTimestamp
  | JsDate (ms : Z)
  | StoreTimestamp (ms : Z).

Record Costume := mkCostume {
  costume_name : string;
  costume_rarity : string;
  costume_avatarUrl : string;
  costume_spriteUrl : string
}.

(** The fields of a cookie document other than its identifier. *)
Record CookieData := mkCookieData {
  name : string;
  avatarUrl : string;
  spriteUrl : string;
  headIconUrl : string;
  rarity : string;
  role : string;
  position : string;
  skillName : string;
  skillDescription : string;
  skillUrl : string;
  elements : list string;
  costumes : list Costume;
  createdAt : Created;
  powerUpId : option string
}.

Record Cookie := mkCookie {
  cookie_id : string;
  cookie_data : CookieData
}.

Global Instance Created_eq_dec : EqDecision Created.
Proof. solve_decision. Defined.
Global Instance Costume_eq_dec : EqDecision Costume.
Proof. solve_decision. Defined.
Global Instance CookieData_eq_dec : EqDecision CookieData.
Proof. solve_decision. Defined.
Global Instance Cookie_eq_dec : EqDecision Cookie.
Proof. solve_decision. Defined.

Definition cookie_name (c : Cookie) : string := name (cookie_data c).
Definition cookie_rarity (c : Cookie) : string := rarity (cookie_data c).

Definition defaultCookie : Cookie :=
  mkCookie "default-cookie-1"
    (mkCookieData "GingerBrave"
       "https://static.wikia.nocookie.net/cookierunkingdom/images/b/b5/Cookie_gingerbrave_card.png/revision/latest"
       "https://static.wikia.nocookie.net/cookierunkingdom/images/c/c9/Cookie0001_run.gif/revision/latest"
       "https://static.wikia.nocookie.net/cookierunkingdom/images/e/e0/Cookie0001_head.png/revision/latest"
       "Common" "Charge" "Front" "Brave Dash"
       "Charges forward, dealing damage to enemies in the way. A classic move of a brave cookie."
       "https://static.wikia.nocookie.net/cookierunkingdom/images/e/ef/SkillIcon_0001.png/revision/latest"
       [] [] (JsDate 0) None).

(** [snapshot.docs.map(doc => ({ id: doc.id, ...doc.data() }))] *)
Definition docToCookie (d : Doc CookieData) : Cookie :=
  mkCookie (merged_id d) (doc_data d).

(** The [cookies] branch of the snapshot handler: the argument of
    [setCookies]. *)
Definition onCookiesSnapshot (docs : list (Doc CookieData)) : list Cookie :=
  let data := docToCookie <$> docs in
  if bool_decide (0 < length data)%nat then data else [defaultCookie].

(** ** Derived view pipeline: search filter *)

(** [String.prototype.toLowerCase] is a built-in of the JavaScript
    engine and no code of this program: it folds every cased letter of
    Unicode by the engine's tables, not only [A]..[Z], and may change
    the length of a string.  The development takes it as a parameter
    and uses one fact about it: the empty string folds to itself. *)
Class HostStrings := {
  toLowerCase : string → string;
  toLowerCase_empty : toLowerCase "" = ""
}.

(** On strings of ASCII characters the built-in folds letter by letter:
    [A]..[Z] go to [a]..[z] and every other character stays. *)
Definition is_upper (a : ascii) : bool :=
  (65 <=? nat_of_ascii a)%nat && (nat_of_ascii a <=? 90)%nat.

Definition lower_char (a : ascii) : ascii :=
  if is_upper a then ascii_of_nat (nat_of_ascii a + 32) else a.

Fixpoint asciiLowerCase (s : string) : string :=
  match s with
  | EmptyString => EmptyString
  | String a s' => String (lower_char a) (asciiLowerCase s')
  end.



(** A host that folds nothing but ASCII letters; it serves as the
    concrete host of the examples. *)
Definition asciiHost : HostStrings :=
  {| toLowerCase := asciiLowerCase; toLowerCase_empty := eq_refl |}.

(** [s.startsWith(t)] *)
Fixpoint startsWith (s t : string) : bool :=
  match t, s with
  | EmptyString, _ => true
  | String b t', String a s' => bool_decide (a = b) && startsWith s' t'
  | String _ _, EmptyString => false
  end.

(** [s.includes(t)]: [t] occurs in [s] at some position. *)
Fixpoint includes (s t : string) : bool :=
  startsWith s t ||
  match s with
  | EmptyString => false
  | String _ s' => includes s' t
  end.

(** The predicate of both search boxes. *)
Definition matchesSearch `{HostStrings} (searchTerm : string) (c : Cookie) : Prop :=
  includes (toLowerCase (cookie_name c)) (toLowerCase searchTerm) = true.

Global Instance matchesSearch_dec `{HostStrings} s c : Decision (matchesSearch s c).
Proof. unfold matchesSearch. apply _. Defined.

Definition filteredCookies `{HostStrings} (cookies : list Cookie) (searchTerm : string)
    : list Cookie :=
  filter (matchesSearch searchTerm) cookies.

(** The words of the specification: a string contains a term as a
    case-insensitive substring when the term, its case folded, is a
    contiguous part of the string, its case folded. *)
Definition contains_ignore_case `{HostStrings} (s term : string) : Prop :=
  ∃ pre post, toLowerCase s = pre +:+ toLowerCase term +:+ post.




(** ** Derived view pipeline: sorting *)

(** JavaScript numbers as far as the comparators need them: integers,
    the infinities and NaN. *)
Inductive JsNumber :=
  | Fin (z : Z)
  | PosInf
  | NegInf
  | NaN.

Definition js_sub (a b : JsNumber) : JsNumber :=
  match a, b with
  | Fin x, Fin y => Fin (x - y)
  | NaN, _ | _, NaN => NaN
  | PosInf, PosInf | NegInf, NegInf => NaN
  | PosInf, _ | _, NegInf => PosInf
  | NegInf, _ | _, PosInf => NegInf
  end.

Definition js_neg (a : JsNumber) : JsNumber :=
  match a with
  | Fin x => Fin (- x)
  | PosInf => NegInf
  | NegInf => PosInf
  | NaN => NaN
  end.

(** [v === 0] *)
Definition js_is_zero (a : JsNumber) : bool :=
  match a with Fin 0 => true | _ => false end.

(** [v > 0]; a comparator result of NaN counts as zero. *)
Definition js_positive (a : JsNumber) : bool :=
  match a with
  | Fin x => bool_decide (0 < x)%Z
  | PosInf => true
  | NegInf | NaN => false
  end.

(** [Array.prototype.sort(comparator)]: the sort is stable, an element
    moves behind another only when the comparator is positive.  For a
    comparator that orders its arguments consistently, as those of this
    program do, every stable sort returns this list. *)
Fixpoint sortInsert {A} (cmp : A → A → JsNumber) (x : A) (l : list A) : list A :=
  match l with
  | [] => [x]
  | y :: l' => if js_positive (cmp x y) then y :: sortInsert cmp x l' else x :: y :: l'
  end.

Definition js_sort {A} (cmp : A → A → JsNumber) (l : list A) : list A :=
  foldr (sortInsert cmp) [] l.

(** The order a comparator asks for: [x] need not move behind [y]. *)
Definition notAfter {A} (cmp : A → A → JsNumber) (x y : A) : Prop :=
  js_positive (cmp x y) = false.

(** [xs.indexOf(x)]: the first position of [x], or -1; always a number. *)
Definition indexOf (xs : list string) (x : string) : JsNumber :=
  match list_find (λ y, y = x) xs with
  | Some (i, _) => Fin (Z.of_nat i)
  | None => Fin (-1)
  end.

(** [v ?? d]: [d] only when [v] is [null] or [undefined]. *)
Definition nullish {A} (v : option A) (d : A) : A := default d v.

(** An entry of one of the attribute lists. *)
Record Attribute := mkAttribute {
  attr_id : string;
  attr_name : string;
  imageUrl : option string;
  allowsPowerUp : bool
}.

Inductive SortOption := SortRarity | SortName.
Inductive SortDirection := Asc | Desc.
Record Sort := mkSort { sort_option : SortOption; direction : SortDirection }.

(** [rarityOrder.indexOf(r) ?? Infinity] *)
Definition rarityRank (rarityOrder : list string) (r : string) : JsNumber :=
  nullish (Some (indexOf rarityOrder r)) PosInf.

(** [c.createdAt?.toDate ? c.createdAt.toDate().getTime() : 0] *)
Definition timeOf (c : Cookie) : Z :=
  match createdAt (cookie_data c) with
  | StoreTimestamp ms => ms
  | NoTimestamp | JsDate _ => 0
  end.

Section Sorting.
(** [String.prototype.localeCompare] depends on the host's locale. *)
Variable localeCompare : string → string → JsNumber.

(** The comparator of [sortedCookies]. *)
Definition compareCookies (sort : Sort) (rarities : list Attribute)
    (a b : Cookie) : JsNumber :=
  let comparison :=
    match sort_option sort with
    | SortRarity =>
        let rarityOrder := attr_name <$> rarities in
        let comparison :=
          js_sub (rarityRank rarityOrder (cookie_rarity a))
                 (rarityRank rarityOrder (cookie_rarity b)) in
        if js_is_zero comparison
        then js_sub (Fin (timeOf a)) (Fin (timeOf b))
        else comparison
    | SortName => localeCompare (cookie_name a) (cookie_name b)
    end in
  match direction sort with
  | Asc => comparison
  | Desc => js_neg comparison
  end.

Definition sortedCookies (sort : Sort) (rarities : list Attribute)
    (filtered : list Cookie) : list Cookie :=
  js_sort (compareCookies sort rarities) filtered.
End Sorting.

(** [new Set(tiers.flatMap(t => t.cookieIds))] *)
Definition allRankedCookies (ts : list Tier) : gset string :=
  list_to_set (ts ≫= cookieIds).

(** The unranked pool of the tier-list view. *)
Definition unrankedCookies `{HostStrings} (cookies : list Cookie) (ts : list Tier)
    (unrankedSearch : string) (rarities : list Attribute) : list Cookie :=
  let rarityOrder := attr_name <$> rarities in
  js_sort (λ a b, js_sub (rarityRank rarityOrder (cookie_rarity a))
                         (rarityRank rarityOrder (cookie_rarity b)))
          (filter (λ c, (cookie_id c ∉ allRankedCookies ts) ∧ matchesSearch unrankedSearch c)
                  cookies).

(** The words of the specification: the rank of a rarity name is its
    position in the registry, or +∞ when the registry does not have it. *)
Definition spec_rarityRank (rarityOrder : list string) (r : string) : JsNumber :=
  match list_find (λ y, y = r) rarityOrder with
  | Some (i, _) => Fin (Z.of_nat i)
  | None => PosInf
  end.

(** ** Derived view pipeline: [cookieTiersMap] *)

Inductive ListKind := Pvp | Pve.

Global Instance ListKind_eq_dec : EqDecision ListKind.
Proof. solve_decision. Defined.

(** An entry [{ pvp?, pve? }] of the lookup table. *)
Record CookieTiers := mkCookieTiers {
  pvp : option string;
  pve : option string
}.

(** [entry[type] = tierName] *)
Definition setKind (type : ListKind) (tierName : string) (e : CookieTiers) : CookieTiers :=
  match type with
  | Pvp => mkCookieTiers (Some tierName) (pve e)
  | Pve => mkCookieTiers (pvp e) (Some tierName)
  end.

Definition getKind (type : ListKind) (e : CookieTiers) : option string :=
  match type with
  | Pvp => pvp e
  | Pve => pve e
  end.

Definition noTiers : CookieTiers := mkCookieTiers None None.

(** ** Plain objects and the properties they inherit

    [{}] makes an object whose prototype is [Object.prototype].  For a
    key the object does not own, [obj[key]] yields what
    [Object.prototype] has under that key: one of its built-in
    functions, [Object.prototype] itself for [__proto__], or a property
    that an earlier assignment put there.  [Object.prototype] and its
    functions are shared by the whole page: what is assigned to them
    stays until the page is reloaded. *)

(** The function-valued properties of [Object.prototype]. *)
Definition builtinMethods : list string :=
  [ "constructor"; "hasOwnProperty"; "isPrototypeOf"; "propertyIsEnumerable";
    "toLocaleString"; "toString"; "valueOf";
    "__defineGetter__"; "__defineSetter__"; "__lookupGetter__"; "__lookupSetter__" ].

(** A key that names a property every plain object inherits. *)
Definition inherited (key : string) : Prop :=
  key = "__proto__" ∨ key ∈ builtinMethods.

(** The part of the shared environment that this program can write to:
    the [pvp] and [pve] properties assigned to [Object.prototype]
    itself, and those assigned to its built-in functions, by the name of
    the function. *)
Record ProtoEnv := mkProtoEnv {
  onPrototype : CookieTiers;
  onBuiltin : gmap string CookieTiers
}.

(** The environment of a page that has just been loaded. *)
Definition freshEnv : ProtoEnv := mkProtoEnv noTiers ∅.

(** What [obj[key]] yields. *)
Inductive Slot (A : Type) :=
  | OwnValue (v : A)
  | ThePrototype
  | Builtin (f : string)
  | InheritedString (s : string)
  | Undefined.
Arguments OwnValue {A} _.
Arguments ThePrototype {A}.
Arguments Builtin {A} _.
Arguments InheritedString {A} _.
Arguments Undefined {A}.

(** The properties [pvp] and [pve] that [Object.prototype] holds once
    tier names were assigned to them. *)
Definition inheritedString (env : ProtoEnv) (key : string) : option string :=
  if bool_decide (key = "pvp") then pvp (onPrototype env)
  else if bool_decide (key = "pve") then pve (onPrototype env)
  else None.

(** [obj[key]] for a plain object with the own properties [own]. *)
Definition getProperty {A} (env : ProtoEnv) (own : gmap string A) (key : string) : Slot A :=
  match own !! key with
  | Some v => OwnValue v
  | None =>
      if bool_decide (key = "__proto__") then ThePrototype
      else if bool_decide (key ∈ builtinMethods) then Builtin key
      else match inheritedString env key with
           | Some s => InheritedString s
           | None => Undefined
           end
  end.

(** Objects and functions are truthy, the empty string and [undefined]
    are not. *)
Definition truthy {A} (slot : Slot A) : bool :=
  match slot with
  | OwnValue _ | ThePrototype | Builtin _ => true
  | InheritedString s => negb (bool_decide (s = ""))
  | Undefined => false
  end.

(** [if (!map[id]) map[id] = {}; map[id][type] = tier.name;]

    The second statement assigns to whatever [map[id]] yields: the entry
    of the table, [Object.prototype], or a built-in function.  The file
    is an ES module, hence strict code: assigning to a property of a
    string throws a [TypeError], rendered as [None]. *)
Definition recordTier (type : ListKind) (tierName : string)
    (st : ProtoEnv * gmap string CookieTiers) (id : string)
    : option (ProtoEnv * gmap string CookieTiers) :=
  let env := st.1 in
  let map := if truthy (getProperty env st.2 id) then st.2 else <[id := noTiers]> st.2 in
  match getProperty env map id with
  | OwnValue e => Some (env, <[id := setKind type tierName e]> map)
  | ThePrototype =>
      Some (mkProtoEnv (setKind type tierName (onPrototype env)) (onBuiltin env), map)
  | Builtin f =>
      Some (mkProtoEnv (onPrototype env)
              (<[f := setKind type tierName (default noTiers (onBuiltin env !! f))]>
                 (onBuiltin env)),
            map)
  | InheritedString _ | Undefined => None
  end.

(** [processTierList(tierList, type)]: the two nested [forEach]; a
    [TypeError] ends the evaluation. *)
Definition processTierList (st : ProtoEnv * gmap string CookieTiers) (tierList : TierList)
    (type : ListKind) : option (ProtoEnv * gmap string CookieTiers) :=
  foldl (λ acc tier,
           foldl (λ acc' id, acc' ≫= λ st', recordTier type (tier_name tier) st' id)
                 acc (cookieIds tier))
        (Some st) (tiers tierList).

(** [cookieTiersMap], evaluated in the environment [env]: the
    environment it leaves and the table, or [None] for a [TypeError]. *)
Definition cookieTiersMap (env : ProtoEnv) (pvpList pveList : TierList)
    : option (ProtoEnv * gmap string CookieTiers) :=
  processTierList (env, ∅) pvpList Pvp ≫= λ st, processTierList st pveList Pve.

(** The property [type] of an object with the own properties [e]: its
    own, or else the one of [Object.prototype]. *)
Definition readKind (env : ProtoEnv) (type : ListKind) (e : CookieTiers) : option string :=
  match getKind type e with
  | Some n => Some n
  | None => getKind type (onPrototype env)
  end.

(** [cookieTiersMap[id]?.[type]], as the detail view reads it. *)
Definition lookupTier (env : ProtoEnv) (map : gmap string CookieTiers) (id : string)
    (type : ListKind) : option string :=
  match getProperty env map id with
  | OwnValue e => readKind env type e
  | ThePrototype => getKind type (onPrototype env)
  | Builtin f => readKind env type (default noTiers (onBuiltin env !! f))
  | InheritedString _ => getKind type (onPrototype env)
  | Undefined => None
  end.

(** No tier of the list holds an identifier that names an inherited
    property. *)
Definition plainIds (l : TierList) : Prop :=
  ∀ t id, t ∈ tiers l → id ∈ cookieIds t → ¬ inherited id.

(** *** The table of own properties

    When no identifier names an inherited property and nothing was
    assigned to [Object.prototype], every step of the evaluation writes
    an own property of the table.  The definitions below describe that
    table by itself; [processTierList_plain] relates them to the
    evaluation. *)
Definition recordEntry (type : ListKind) (tierName : string)
    (map : gmap string CookieTiers) (id : string) : gmap string CookieTiers :=
  <[id := setKind type tierName (default noTiers (map !! id))]> map.

Definition ownEntries (map : gmap string CookieTiers) (tierList : TierList)
    (type : ListKind) : gmap string CookieTiers :=
  foldl (λ m tier, foldl (recordEntry type (tier_name tier)) m (cookieIds tier))
        map (tiers tierList).

Definition ownTable (pvpList pveList : TierList) : gmap string CookieTiers :=
  ownEntries (ownEntries ∅ pvpList Pvp) pveList Pve.

Definition ownLookup (map : gmap string CookieTiers) (id : string)
    (type : ListKind) : option string :=
  map !! id ≫= getKind type.

(** The pairs (tier name, cookie identifier) in the order the two nested
    loops of [processTierList] visit them, and the step taken at each. *)
Definition placements (ts : list Tier) : list (string * string) :=
  ts ≫= λ t, (λ id, (tier_name t, id)) <$> cookieIds t.

Definition recordPlacement (type : ListKind) (m : gmap string CookieTiers)
    (p : string * string) : gmap string CookieTiers :=
  recordEntry type p.1 m p.2.

Definition recordStep (type : ListKind)
    (acc : option (ProtoEnv * gmap string CookieTiers)) (p : string * string)
    : option (ProtoEnv * gmap string CookieTiers) :=
  acc ≫= λ st, recordTier type p.1 st p.2.

(** The object that [map[id]] yields has the name [n] as its own
    property [type]. *)
Definition held (st : ProtoEnv * gmap string CookieTiers) (id : string)
    (type : ListKind) (n : string) : Prop :=
  match st.2 !! id with
  | Some e => getKind type e = Some n
  | None =>
      if bool_decide (id = "__proto__") then getKind type (onPrototype st.1) = Some n
      else if bool_decide (id ∈ builtinMethods)
           then getKind type (default noTiers (onBuiltin st.1 !! id)) = Some n
           else False
  end.

(** ** Writes to the remote store and [handleDelete] *)

Inductive Payload :=
  | TierListPayload (l : TierList)
  | CookiePayload (c : Cookie).

Inductive Write :=
  | SetDocMerge (collectionName id : string) (data : Payload)
  | AddDoc (collectionName : string) (data : Payload)
  | DeleteDoc (collectionName id : string).

(** [saveData(collectionName, data, id)] with a database handle: the
    writes it issues, in order. *)
Definition saveData (collectionName : string) (data : Payload) (id : string) : list Write :=
  if bool_decide (id = "") then [AddDoc collectionName data]
  else [SetDocMerge collectionName id data].

Definition handleSaveTierList (newList : TierList) : list Write :=
  saveData "tierlists" (TierListPayload newList) (list_id newList).

(** The tier-list part of the confirmed deletion, for one list:
    [newTiers] and the save guarded by the comparison of the two
    [JSON.stringify] renderings.  The new tiers are built from the old
    ones by spreading, so both renderings have the same keys in the same
    order and differ exactly when some field value differs. *)
Definition purgeTiers (id : string) (l : TierList) : list Tier :=
  withoutCookie id <$> tiers l.

(** [{ ...list, tiers: newTiers }] *)
Definition purged (id : string) (l : TierList) : TierList :=
  mkTierList (list_id l) (list_name l) (purgeTiers id l).

Definition purgeTierList (id : string) (l : TierList) : list Write :=
  let newTiers := purgeTiers id l in
  if bool_decide (newTiers ≠ tiers l)
  then handleSaveTierList (purged id l)
  else [].

(** The action installed by [handleDelete(collectionName, id)], run after
    confirmation: the writes it issues, in order.  [connected] is [db]
    being set. *)
Definition handleDelete (connected : bool) (pvpList pveList : TierList)
    (cookies : list Cookie) (collectionName id : string) : list Write :=
  if negb connected then []
  else
    ((if bool_decide (collectionName = "cookies")
      then purgeTierList id pvpList ++ purgeTierList id pveList
      else []) ++
     (if bool_decide (collectionName = "powerups")
      then match list_find (λ c, powerUpId (cookie_data c) = Some id) cookies with
           | Some (_, linkedCookie) =>
               let d := cookie_data linkedCookie in
               saveData "cookies"
                 (CookiePayload
                    (mkCookie (cookie_id linkedCookie)
                       (mkCookieData (name d) (avatarUrl d) (spriteUrl d) (headIconUrl d)
                          (rarity d) (role d) (position d) (skillName d)
                          (skillDescription d) (skillUrl d) (elements d) (costumes d)
                          (createdAt d) (Some ""))))
                 (cookie_id linkedCookie)
           | None => []
           end
      else []) ++
     [DeleteDoc collectionName id])%list.

(** A tier list as the store holds it once the writes of a log have been
    applied in order: a merge write to the list's document replaces its
    [tiers]. *)
Definition applyWrite (l : TierList) (w : Write) : TierList :=
  match w with
  | SetDocMerge "tierlists" id (TierListPayload l') =>
      if bool_decide (id = list_id l) then l' else l
  | _ => l
  end.

Definition applyWrites (l : TierList) (ws : list Write) : TierList :=
  foldl applyWrite l ws.

(** ** Further operations of the tier editor, the views and the forms *)

(** [removeTier(index)]: [tiers.filter((_, i) => i !== index)]. *)
Definition removeTier (index : nat) (ts : list Tier) : list Tier :=
  (filter (λ p, p.1 ≠ index) (imap (λ i t, (i, t)) ts)).*2.

Global Instance SortOption_eq_dec : EqDecision SortOption.
Proof. solve_decision. Defined.
Global Instance SortDirection_eq_dec : EqDecision SortDirection.
Proof. solve_decision. Defined.

(** [handleSort(option)]: the updater given to [setSort]. *)
Definition handleSort (option : SortOption) (prev : Sort) : Sort :=
  mkSort option
    (if bool_decide (sort_option prev = option) && bool_decide (direction prev = Asc)
     then Desc else Asc).

(** [cookie.rarity || 'Common'] *)
Definition groupKey (c : Cookie) : string :=
  if bool_decide (cookie_rarity c = "") then "Common" else cookie_rarity c.

(** One step of the [reduce] of [groupedCookies]:
    [(acc[rarity] = acc[rarity] || []).push(cookie)].  The accumulator
    is a plain object: for a rarity name it does not own, [acc[rarity]]
    yields what it inherits under that name.  An inherited value that is
    truthy is assigned back and has no [push], so the call throws a
    [TypeError], rendered as [None]. *)
Definition groupStep (env : ProtoEnv) (acc : option (gmap string (list Cookie)))
    (cookie : Cookie) : option (gmap string (list Cookie)) :=
  acc ≫= λ groups,
    let rarity := groupKey cookie in
    let slot := getProperty env groups rarity in
    if truthy slot
    then match slot with
         | OwnValue g => Some (<[rarity := (g ++ [cookie])%list]> groups)
         | _ => None
         end
    else Some (<[rarity := [cookie]]> groups).

(** [groupedCookies], evaluated in the environment [env].  The object
    is a finite map from rarity name to group; the order in which
    [Object.entries] later lists the groups is not part of it. *)
Definition groupedCookies (env : ProtoEnv) (sorted : list Cookie)
    : option (gmap string (list Cookie)) :=
  foldl (groupStep env) (Some ∅) sorted.

(** A key under which a plain object that does not own it yields a
    truthy inherited value. *)
Definition shadowed (env : ProtoEnv) (key : string) : Prop :=
  inherited key
  ∨ match inheritedString env key with
    | Some s => s ≠ ""
    | None => False
    end.

Global Instance inherited_dec key : Decision (inherited key).
Proof. unfold inherited. apply _. Defined.

Global Instance shadowed_dec env key : Decision (shadowed env key).
Proof. unfold shadowed. destruct (inheritedString env key); apply _. Defined.

(** The modal stack: [openModal] pushes [{ type, data }], [closeModal]
    is [prev.slice(0, -1)], the modal shown is the last entry. *)
Definition openModal {D} (type : string) (data : D) (prev : list (string * D))
    : list (string * D) :=
  (prev ++ [(type, data)])%list.

Definition closeModal {D} (prev : list (string * D)) : list (string * D) :=
  take (length prev - 1) prev.

Definition currentModal {D} (modalStack : list (string * D)) : option (string * D) :=
  modalStack !! (length modalStack - 1)%nat.

(** [{ ...cookie, costumes: updatedCostumes }] *)
Definition withCostumes (c : Cookie) (updatedCostumes : list Costume) : Cookie :=
  let d := cookie_data c in
  mkCookie (cookie_id c)
    (mkCookieData (name d) (avatarUrl d) (spriteUrl d) (headIconUrl d)
       (rarity d) (role d) (position d) (skillName d)
       (skillDescription d) (skillUrl d) (elements d) updatedCostumes
       (createdAt d) (powerUpId d)).

(** The action installed by [handleDeleteCostume(costumeToDelete)]: its
    arguments are [costumeToDelete.name] and [costumeToDelete.cookie.id];
    [saveData] writes nothing without a database handle. *)
Definition handleDeleteCostume (connected : bool) (cookies : list Cookie)
    (costumeName cookieId : string) : list Write :=
  match list_find (λ c, cookie_id c = cookieId) cookies with
  | None => []
  | Some (_, parentCookie) =>
      let updatedCostumes :=
        filter (λ c, costume_name c ≠ costumeName) (costumes (cookie_data parentCookie)) in
      if connected
      then saveData "cookies" (CookiePayload (withCostumes parentCookie updatedCostumes))
                    (cookie_id parentCookie)
      else []
  end.

(** An attribute document as a snapshot delivers it. *)
Record AttributeDoc := mkAttributeDoc {
  attribute : Attribute;
  attr_createdAt : Created
}.

(** [x.createdAt?.toDate ? x.createdAt.toDate().getTime() : 0] *)
Definition createdTime (c : Created) : Z :=
  match c with
  | StoreTimestamp ms => ms
  | NoTimestamp | JsDate _ => 0
  end.

(** The last branch of the snapshot handler (the six attribute
    collections): [data.sort(...)] by creation time. *)
Definition onAttributesSnapshot (data : list AttributeDoc) : list AttributeDoc :=
  js_sort (λ a b, js_sub (Fin (createdTime (attr_createdAt a)))
                         (Fin (createdTime (attr_createdAt b)))) data.

(** [handleElementChange] of the cookie form: the new [elements]. *)
Definition handleElementChange (value : string) (checked : bool)
    (elements : list string) : list string :=
  if checked then (elements ++ [value])%list
  else filter (λ el, el ≠ value) elements.

(** The six attribute lists of the application state. *)
Record Attributes := mkAttributes {
  attrs_rarities : list Attribute;
  attrs_roles : list Attribute;
  attrs_elements : list Attribute;
  attrs_positions : list Attribute;
  attrs_costumeRarities : list Attribute;
  attrs_powerUpTypes : list Attribute
}.

(** [attributes[listKeyMap[type]] || []] *)
Definition attributeList (attributes : Attributes) (type : string) : list Attribute :=
  match type with
  | "rarity" => attrs_rarities attributes
  | "costumeRarity" => attrs_costumeRarities attributes
  | "role" => attrs_roles attributes
  | "element" => attrs_elements attributes
  | "position" => attrs_positions attributes
  | "powerUpType" => attrs_powerUpTypes attributes
  | _ => []
  end.

(** [getAttributeImageUrl(type, name)]: [list.find(...)?.imageUrl]. *)
Definition getAttributeImageUrl (attributes : Attributes) (type name : string)
    : option string :=
  list_find (λ a, attr_name a = name) (attributeList attributes type) ≫= λ p, imageUrl p.2.

(** The cookies collection once the writes of a log have been applied
    in order: a merge write with a whole cookie as payload replaces the
    document of that identifier, a deletion removes it. *)
Definition applyCookieWrite (cookies : list Cookie) (w : Write) : list Cookie :=
  match w with
  | SetDocMerge "cookies" id (CookiePayload c') =>
      (λ c, if bool_decide (cookie_id c = id) then c' else c) <$> cookies
  | DeleteDoc "cookies" id => filter (λ c, cookie_id c ≠ id) cookies
  | _ => cookies
  end.

Definition applyCookieWrites (cookies : list Cookie) (ws : list Write) : list Cookie :=
  foldl applyCookieWrite cookies ws.

(** The test of the search boxes on one string:
    [s.toLowerCase().includes(searchTerm.toLowerCase())]. *)
Definition matchesText `{HostStrings} (searchTerm s : string) : Prop :=
  includes (toLowerCase s) (toLowerCase searchTerm) = true.

Global Instance matchesText_dec `{HostStrings} searchTerm s :
  Decision (matchesText searchTerm s).
Proof. unfold matchesText. apply _. Defined.

(** The costume manager: an entry [{ ...costume, cookie }]. *)
Record CostumeEntry := mkCostumeEntry {
  entry_costume : Costume;
  entry_cookie : Cookie
}.

(** [cookies.flatMap(cookie => (cookie.costumes || []).map(costume =>
    ({ ...costume, cookie })))] *)
Definition allCostumes (cookies : list Cookie) : list CostumeEntry :=
  cookies ≫= λ cookie,
    (λ costume, mkCostumeEntry costume cookie) <$> costumes (cookie_data cookie).

Definition filteredCostumes `{HostStrings} (cookies : list Cookie) (searchTerm : string)
    : list CostumeEntry :=
  filter (λ e, matchesText searchTerm (costume_name (entry_costume e))
               ∨ matchesText searchTerm (cookie_name (entry_cookie e)))
         (allCostumes cookies).

(** The sort options of the costume manager: ['rarity'], ['costumeName']
    and any other (the parent cookie's name). *)
Inductive CostumeSortOption := CostumeByRarity | CostumeByName | CostumeByCookie.

Section CostumeSorting.
Variable localeCompare : string → string → JsNumber.

(** The comparator of [sortedCostumes]. *)
Definition compareCostumes (option : CostumeSortOption) (d : SortDirection)
    (costumeRarities : list Attribute) (a b : CostumeEntry) : JsNumber :=
  let comparison :=
    match option with
    | CostumeByRarity =>
        let rarityOrder := attr_name <$> costumeRarities in
        js_sub (rarityRank rarityOrder (costume_rarity (entry_costume a)))
               (rarityRank rarityOrder (costume_rarity (entry_costume b)))
    | CostumeByName =>
        localeCompare (costume_name (entry_costume a)) (costume_name (entry_costume b))
    | CostumeByCookie =>
        localeCompare (cookie_name (entry_cookie a)) (cookie_name (entry_cookie b))
    end in
  match d with
  | Asc => comparison
  | Desc => js_neg comparison
  end.

Definition sortedCostumes (option : CostumeSortOption) (d : SortDirection)
    (costumeRarities : list Attribute) (filtered : list CostumeEntry)
    : list CostumeEntry :=
  js_sort (compareCostumes option d costumeRarities) filtered.
End CostumeSorting.

(** * Properties *)

(** ** Tier List Engine *)

Section TierEngine.
Implicit Types (c d target : string) (t : Tier) (ts : list Tier) (l : TierList).

Lemma withoutCookie_id c t : tier_id (withoutCookie c t) = tier_id t.
Proof. reflexivity. Qed.

Lemma elem_of_withoutCookie c d t :
  d ∈ cookieIds (withoutCookie c t) ↔ d ∈ cookieIds t ∧ d ≠ c.
Proof. simpl. rewrite list_elem_of_filter. tauto. Qed.

Lemma elem_of_pushCookie c d t :
  d ∈ cookieIds (pushCookie c t) ↔ d ∈ cookieIds t ∨ d = c.
Proof. simpl. rewrite elem_of_app, list_elem_of_singleton. tauto. Qed.

Lemma withoutCookie_absent c t : c ∉ cookieIds t → withoutCookie c t = t.
Proof.
  destruct t as [i n k ids]; unfold withoutCookie; simpl; intros Hc.
  f_equal. induction ids as [|x ids IH]; [done|].
  apply not_elem_of_cons in Hc as [Hx Hids].
  rewrite filter_cons_True by congruence. by rewrite IH.
Qed.

Lemma withoutCookie_pushCookie c t :
  withoutCookie c (pushCookie c (withoutCookie c t)) = withoutCookie c t.
Proof.
  unfold withoutCookie, pushCookie; simpl. f_equal.
  rewrite filter_app, filter_cons_False, filter_nil, app_nil_r by (intros ?; done).
  apply list_filter_filter_l. tauto.
Qed.

Lemma withoutCookie_idemp c t :
  withoutCookie c (withoutCookie c t) = withoutCookie c t.
Proof.
  unfold withoutCookie; simpl. f_equal. apply list_filter_filter_l. tauto.
Qed.

(** The result of a drop has one of two shapes. *)
Lemma dropTiers_shape c target ts :
  dropTiers c target ts = withoutCookie c <$> ts
  ∨ ∃ k, dropTiers c target ts = alter (pushCookie c) k (withoutCookie c <$> ts).
Proof.
  unfold dropTiers. case_bool_decide; [|by left].
  destruct (list_find _ _) as [[k ?]|]; [right; by exists k | by left].
Qed.

Lemma tier_invariant_without c ts :
  tier_invariant ts → tier_invariant (withoutCookie c <$> ts).
Proof.
  intros Hinv i j ti tj d Hi Hj Hdi Hdj.
  apply list_lookup_fmap_Some in Hi as (ti' & -> & Hi).
  apply list_lookup_fmap_Some in Hj as (tj' & -> & Hj).
  apply elem_of_withoutCookie in Hdi as [Hdi _].
  apply elem_of_withoutCookie in Hdj as [Hdj _].
  eauto.
Qed.

Lemma tier_invariant_push c k ts :
  tier_invariant ts →
  tier_invariant (alter (pushCookie c) k (withoutCookie c <$> ts)).
Proof.
  intros Hinv i j ti tj d Hi Hj Hdi Hdj.
  assert (∀ n tn, alter (pushCookie c) k (withoutCookie c <$> ts) !! n = Some tn →
                  d ∈ cookieIds tn →
                  (d = c ∧ n = k) ∨ (d ≠ c ∧ ∃ t, ts !! n = Some t ∧ d ∈ cookieIds t))
    as Hcase.
  { intros n tn Hn Hd. rewrite list_lookup_alter in Hn.
    case_decide as Hk; subst.
    - apply fmap_Some in Hn as (t' & Ht' & ->).
      apply list_lookup_fmap_Some in Ht' as (t & -> & Ht).
      apply elem_of_pushCookie in Hd as [Hd| ->]; [|by left].
      apply elem_of_withoutCookie in Hd as [Hd Hne]. right. eauto.
    - apply list_lookup_fmap_Some in Hn as (t & -> & Ht).
      apply elem_of_withoutCookie in Hd as [Hd Hne]. right. eauto. }
  destruct (Hcase i ti Hi Hdi) as [[-> ->]|[Hne (ti' & Hi' & Hdi')]],
           (Hcase j tj Hj Hdj) as [[? ->]|[Hne' (tj' & Hj' & Hdj')]];
    try done.
  eauto.
Qed.

Lemma dropTiers_invariant c target ts :
  tier_invariant ts → tier_invariant (dropTiers c target ts).
Proof.
  intros Hinv. destruct (dropTiers_shape c target ts) as [->|[k ->]];
    auto using tier_invariant_without, tier_invariant_push.
Qed.

Lemma moveCookie_tiers l c target :
  tiers (moveCookie l c target)
  = if bool_decide (c = "") then tiers l else dropTiers c target (tiers l).
Proof. unfold moveCookie, handleDrop, falsy. by case_bool_decide. Qed.

Lemma moveCookie_invariant l c target :
  tier_invariant (tiers l) → tier_invariant (tiers (moveCookie l c target)).
Proof.
  rewrite moveCookie_tiers. case_bool_decide; auto using dropTiers_invariant.
Qed.

(** Tiers whose cookie identifiers are pairwise different, within and
    across tiers, satisfy the invariant. *)
Lemma tier_invariant_NoDup ts : NoDup (ts ≫= cookieIds) → tier_invariant ts.
Proof.
  induction ts as [|t ts IH]; intros Hnd i j ti tj c Hi Hj Hci Hcj; [done|].
  rewrite bind_cons in Hnd. apply NoDup_app in Hnd as (_ & Hdisj & Hnd).
  assert (∀ k tk, ts !! k = Some tk → c ∈ cookieIds t → c ∈ cookieIds tk → False)
    as Hcross.
  { intros k tk Hk Hct Hck. apply (Hdisj c Hct).
    apply list_elem_of_bind. exists tk. split; [done|].
    by eapply list_elem_of_lookup_2. }
  destruct i as [|i], j as [|j]; simpl in *; simplify_eq; try done.
  - exfalso. eauto.
  - exfalso. eauto.
  - f_equal. by apply (IH Hnd i j ti tj c).
Qed.

Lemma defaultTiers_invariant : tier_invariant defaultTiers.
Proof. apply tier_invariant_NoDup. simpl. constructor. Qed.
End TierEngine.

(** C2. Starting from a tier list in which every cookie identifier
    occurs in at most one tier, every tier list reached along any
    sequence of drag-and-drop moves (any cookie identifier, any target
    tier identifier, "unranked" included) again has every cookie
    identifier in at most one tier. *)
Theorem moveCookie_preserves_invariant (l : TierList) (ops : list (string * string)) :
  tier_invariant (tiers l) →
  Forall (λ l', tier_invariant (tiers l')) (moveTrace l ops).
Proof.
  revert l. induction ops as [|[c target] ops IH]; intros l Hinv; simpl.
  - constructor.
  - constructor; [|apply IH]; by apply moveCookie_invariant.
Qed.

Lemma moveCookie_preserves_invariant_witness :
  let l := mkTierList "pvp-tier-list" "PvP Tier List"
             [mkTier "S" "S" "bg-red-500" ["cookie1"; "cookie3"];
              mkTier "A" "A" "bg-orange-500" ["cookie2"];
              mkTier "B" "B" "bg-yellow-500" []] in
  tier_invariant (tiers l) ∧
  Forall (λ l', tier_invariant (tiers l'))
    (moveTrace l
       [("cookie1", "A"); ("cookie2", "A"); ("cookie4", "B");
        ("cookie3", "unranked"); ("cookie1", "Z")]).
Proof.
  intros l.
  assert (tier_invariant (tiers l)) as Hinv.
  { apply tier_invariant_NoDup.
    apply (bool_decide_unpack (NoDup (tiers l ≫= cookieIds))). vm_compute. exact I. }
  split; [exact Hinv|].
  exact (moveCookie_preserves_invariant l _ Hinv).
Defined.

Section DropShapes.
Implicit Types (c d target : string) (t : Tier) (ts : list Tier) (l : TierList).

Lemma fmap_withoutCookie_idemp c ts :
  withoutCookie c <$> (withoutCookie c <$> ts) = withoutCookie c <$> ts.
Proof.
  rewrite <-list_fmap_compose. apply list_fmap_ext.
  intros _ t _. apply withoutCookie_idemp.
Qed.

Lemma fmap_withoutCookie_push c k ts :
  withoutCookie c <$> alter (pushCookie c) k (withoutCookie c <$> ts)
  = withoutCookie c <$> ts.
Proof.
  apply list_eq; intros i.
  rewrite !list_lookup_fmap, list_lookup_alter.
  case_decide; simplify_eq; rewrite ?list_lookup_fmap;
    destruct (ts !! i) as [t|]; simpl; try done; f_equal.
  - apply withoutCookie_pushCookie.
  - apply withoutCookie_idemp.
Qed.

Lemma dropTiers_idemp c target ts :
  dropTiers c target (dropTiers c target ts) = dropTiers c target ts.
Proof.
  unfold dropTiers at 2. case_bool_decide as Htarget.
  - destruct (list_find _ (withoutCookie c <$> ts)) as [[k tk]|] eqn:Hfind;
      unfold dropTiers; rewrite (bool_decide_true _ Htarget).
    + by rewrite fmap_withoutCookie_push, Hfind.
    + by rewrite fmap_withoutCookie_idemp, Hfind.
  - unfold dropTiers. rewrite bool_decide_false by (intros Hne; by apply Hne).
    apply fmap_withoutCookie_idemp.
Qed.

Lemma not_ranked_without c ts : ¬ ranked c (withoutCookie c <$> ts).
Proof.
  intros (t & Ht & Hc). apply list_elem_of_fmap in Ht as (t' & -> & _).
  apply elem_of_withoutCookie in Hc as [_ Hne]. done.
Qed.

Lemma fmap_withoutCookie_not_ranked c ts :
  ¬ ranked c ts → withoutCookie c <$> ts = ts.
Proof.
  intros Hnot. rewrite <-(list_fmap_id ts) at 2. apply list_fmap_ext.
  intros _ t Ht%list_elem_of_lookup_2. apply withoutCookie_absent.
  intros Hc. apply Hnot. by exists t.
Qed.

Lemma dropTiers_missing c target ts :
  Forall (λ t, tier_id t ≠ target) ts →
  dropTiers c target ts = withoutCookie c <$> ts.
Proof.
  intros Hnone. unfold dropTiers. case_bool_decide; [|done].
  assert (list_find (λ t, tier_id t = target) (withoutCookie c <$> ts) = None) as ->; [|done].
  apply list_find_None, Forall_fmap. by eapply Forall_impl.
Qed.
End DropShapes.

(** C3 (as amended). Dropping a dragged cookie on a target identifier
    that no tier of the list carries saves the list with the cookie
    removed from every tier and nothing else changed: afterwards the
    cookie is in no tier, and the list is the one before the drop
    exactly when the cookie was in no tier before. *)
Theorem drop_on_missing_tier_unranks (l : TierList) (c target : string) :
  c ≠ "" →
  Forall (λ t, tier_id t ≠ target) (tiers l) →
  handleDrop (Some c) target l
    = Some (mkTierList (list_id l) (list_name l) (withoutCookie c <$> tiers l))
  ∧ ¬ ranked c (tiers (moveCookie l c target))
  ∧ (moveCookie l c target = l ↔ ¬ ranked c (tiers l)).
Proof.
  intros Hc Hnone.
  assert (handleDrop (Some c) target l
          = Some (mkTierList (list_id l) (list_name l) (withoutCookie c <$> tiers l)))
    as Hdrop.
  { unfold handleDrop, falsy. rewrite bool_decide_false by done.
    by rewrite dropTiers_missing. }
  unfold moveCookie. rewrite Hdrop. simpl. split_and!; [done|apply not_ranked_without|].
  split.
  - intros Heq Hr. apply (not_ranked_without c (tiers l)).
    by rewrite <-Heq in Hr at 1.
  - intros Hnot. rewrite fmap_withoutCookie_not_ranked by done. by destruct l.
Qed.

Lemma drop_on_missing_tier_unranks_witness :
  let l := mkTierList "pvp-tier-list" "PvP Tier List"
             [mkTier "S" "S" "bg-red-500" ["cookie1"; "cookie2"];
              mkTier "A" "A" "bg-orange-500" ["cookie3"]] in
  "cookie1" ≠ ""
  ∧ Forall (λ t, tier_id t ≠ "Z") (tiers l)
  ∧ handleDrop (Some "cookie1") "Z" l
    = Some (mkTierList "pvp-tier-list" "PvP Tier List"
              [mkTier "S" "S" "bg-red-500" ["cookie2"];
               mkTier "A" "A" "bg-orange-500" ["cookie3"]])
  ∧ ¬ ranked "cookie1" (tiers (moveCookie l "cookie1" "Z"))
  ∧ (moveCookie l "cookie1" "Z" = l ↔ ¬ ranked "cookie1" (tiers l)).
Proof.
  intros l.
  assert ("cookie1" ≠ "") as Hc by discriminate.
  assert (Forall (λ t, tier_id t ≠ "Z") (tiers l)) as Hnone
    by (repeat constructor; discriminate).
  split; [exact Hc|]. split; [exact Hnone|].
  exact (drop_on_missing_tier_unranks l "cookie1" "Z" Hc Hnone).
Defined.

(** C3 (as stated) fails: with "cookie1" placed in tier S, a drop on an
    identifier that no tier carries ("Z", or the unranked pool) saves a
    list that differs from the one before the drop. *)
Lemma drop_on_missing_tier_not_noop :
  let l := mkTierList "pvp-tier-list" "PvP Tier List"
             [mkTier "S" "S" "bg-red-500" ["cookie1"];
              mkTier "A" "A" "bg-orange-500" []] in
  Forall (λ t, tier_id t ≠ "Z") (tiers l)
  ∧ Forall (λ t, tier_id t ≠ "unranked") (tiers l)
  ∧ handleDrop (Some "cookie1") "Z" l
      = Some (mkTierList "pvp-tier-list" "PvP Tier List"
                [mkTier "S" "S" "bg-red-500" [];
                 mkTier "A" "A" "bg-orange-500" []])
  ∧ moveCookie l "cookie1" "Z" ≠ l
  ∧ moveCookie l "cookie1" "unranked" ≠ l.
Proof.
  simpl. split_and!; try (repeat constructor; discriminate); try reflexivity;
    vm_compute; discriminate.
Qed.

(** C8. Applying a move twice with the same cookie identifier and the
    same target yields the tier list that applying it once yields. *)
Theorem moveCookie_idempotent (l : TierList) (c target : string) :
  moveCookie (moveCookie l c target) c target = moveCookie l c target.
Proof.
  unfold moveCookie, handleDrop, falsy.
  case_bool_decide as Hc; simpl.
  - by rewrite ?bool_decide_true.
  - rewrite ?bool_decide_false by done. simpl.
    by rewrite dropTiers_idemp.
Qed.

(** ** Tier editor *)

Section DecimalRendering.
Local Open Scope N_scope.

Lemma pretty_N_go_digit (x : N) (s : string) :
  0 < x → ∃ d rest, pretty_N_go x s = String (pretty_N_char d) rest.
Proof.
  revert s. induction (N.lt_wf_0 x) as [x _ IH]; intros s Hx.
  rewrite pretty_N_go_step by done.
  destruct (decide (x `div` 10 = 0)) as [->|Hdiv].
  - rewrite pretty_N_go_0. eauto.
  - apply IH; [by apply N.div_lt|by apply N.neq_0_lt_0].
Qed.

Lemma pretty_N_char_not_seed (d : N) (rest : string) :
  String (pretty_N_char d) rest ∉ seedIds.
Proof.
  unfold seedIds, defaultTiers. simpl. intros H.
  repeat (apply elem_of_cons in H as [H|H];
          [injection H as Hd _; unfold pretty_N_char in Hd;
           by repeat case_match|]).
  by apply elem_of_nil in H.
Qed.
End DecimalRendering.

Lemma pretty_Z_not_seed (now : Z) : pretty now ∉ seedIds.
Proof.
  assert (∀ s : string, s ∉ seedIds ↔ s ≠ "S" ∧ s ≠ "A" ∧ s ≠ "B" ∧ s ≠ "C") as Hseed.
  { intros s. unfold seedIds; simpl. rewrite !not_elem_of_cons. 
    pose proof (not_elem_of_nil s). tauto. }
  destruct now as [|p|p]; unfold pretty, pretty_Z.
  - by apply Hseed.
  - unfold pretty, pretty_positive, pretty, pretty_N.
    rewrite decide_False by done.
    destruct (pretty_N_go_digit (N.pos p) "") as (d & rest & ->); [lia|].
    apply pretty_N_char_not_seed.
  - by apply Hseed.
Qed.

(** C4 (as amended). [addTier] appends one tier whose identifier is the
    decimal rendering of the clock reading, named "New Tier", coloured
    "bg-gray-500", with no cookies; that identifier differs from the
    identifier of every tier already in the list when each of those is a
    seed identifier or was generated at another clock reading. *)
Theorem addTier_fresh_id (now : Z) (ts : list Tier) :
  Forall (λ t, tier_id t ∈ seedIds ∨ ∃ m : Z, m ≠ now ∧ tier_id t = pretty m) ts →
  addTier now ts = (ts ++ [mkTier (pretty now) "New Tier" "bg-gray-500" []])%list
  ∧ Forall (λ t, tier_id t ≠ pretty now) ts.
Proof.
  intros Hts. split; [reflexivity|].
  eapply Forall_impl; [exact Hts|]. simpl.
  intros t [Hseed|(m & Hm & Hid)] Heq.
  - rewrite Heq in Hseed. by apply pretty_Z_not_seed in Hseed.
  - rewrite Hid in Heq. by apply (inj pretty) in Heq.
Qed.

Lemma addTier_fresh_id_witness :
  Forall (λ t, tier_id t ∈ seedIds
               ∨ ∃ m : Z, m ≠ 1700000000001%Z ∧ tier_id t = pretty m)
    (addTier 1700000000000 defaultTiers)
  ∧ addTier 1700000000001 (addTier 1700000000000 defaultTiers)
    = (addTier 1700000000000 defaultTiers
         ++ [mkTier (pretty 1700000000001%Z) "New Tier" "bg-gray-500" []])%list
  ∧ Forall (λ t, tier_id t ≠ pretty 1700000000001%Z)
      (addTier 1700000000000 defaultTiers).
Proof.
  assert (Forall (λ t, tier_id t ∈ seedIds
                       ∨ ∃ m : Z, m ≠ 1700000000001%Z ∧ tier_id t = pretty m)
            (addTier 1700000000000 defaultTiers)) as Hts.
  { unfold addTier, defaultTiers, seedIds; simpl.
    repeat (constructor;
            [first [left; set_solver
                   |right; exists 1700000000000%Z; split; [lia|reflexivity]]|]).
    constructor. }
  split; [exact Hts|].
  exact (addTier_fresh_id 1700000000001 (addTier 1700000000000 defaultTiers) Hts).
Defined.

(** C4 (as stated) fails: two tiers added at the same clock reading get
    the same identifier. *)
Lemma addTier_id_collision :
  let ts := addTier 1700000000000 defaultTiers in
  addTier 1700000000000 ts = (ts ++ [newTier 1700000000000])%list
  ∧ tier_id (newTier 1700000000000) = "1700000000000"
  ∧ ¬ Forall (λ t, tier_id t ≠ tier_id (newTier 1700000000000)) ts.
Proof.
  intros ts. split_and!; [reflexivity|by vm_compute|].
  unfold ts, addTier. rewrite Forall_app, Forall_singleton.
  intros [_ H]. by apply H.
Qed.

(** ** Cookie-to-tier lookup table *)

Section Lookup.
Implicit Types (m : gmap string CookieTiers) (type : ListKind) (id : string).

Lemma ownEntries_placements m l type :
  ownEntries m l type = foldl (recordPlacement type) m (placements (tiers l)).
Proof.
  unfold ownEntries, placements. generalize (tiers l) as ts. intros ts.
  revert m. induction ts as [|t ts IH]; intros m; [done|].
  rewrite bind_cons, foldl_app. simpl. rewrite IH. f_equal.
  by rewrite foldl_fmap.
Qed.

Lemma elem_of_placements n id (ts : list Tier) :
  (n, id) ∈ placements ts ↔ ∃ t, t ∈ ts ∧ n = tier_name t ∧ id ∈ cookieIds t.
Proof.
  unfold placements. rewrite list_elem_of_bind. split.
  - intros (t & Hin & Ht). apply list_elem_of_fmap in Hin as (id' & [= -> ->] & Hid).
    by exists t.
  - intros (t & Ht & -> & Hid). exists t. split; [|done].
    apply list_elem_of_fmap. by exists id.
Qed.

Lemma ownLookup_recordEntry type type' n m id id' :
  ownLookup (recordEntry type n m id') id type'
  = if decide (id = id' ∧ type' = type) then Some n else ownLookup m id type'.
Proof.
  unfold ownLookup, recordEntry.
  destruct (decide (id' = id)) as [->|Hne].
  - rewrite lookup_insert_eq. simpl.
    destruct (decide (type' = type)) as [->|Hk].
    + rewrite decide_True by done. by destruct type.
    + rewrite decide_False by tauto.
      destruct (m !! id) as [e|]; simpl; by destruct type, type'.
  - rewrite lookup_insert_ne by done. rewrite decide_False; [done|].
    intros [-> _]. done.
Qed.

Lemma ownLookup_other_kind type type' m id ps :
  type' ≠ type →
  ownLookup (foldl (recordPlacement type) m ps) id type' = ownLookup m id type'.
Proof.
  intros Hne. revert m. induction ps as [|[n id'] ps IH]; intros m; [done|].
  simpl. rewrite IH. unfold recordPlacement. simpl.
  rewrite ownLookup_recordEntry. rewrite decide_False; [done|]. tauto.
Qed.

Lemma ownLookup_stays type m id ps :
  is_Some (ownLookup m id type) →
  is_Some (ownLookup (foldl (recordPlacement type) m ps) id type).
Proof.
  revert m. induction ps as [|[n id'] ps IH]; intros m Hm; [done|].
  simpl. apply IH. unfold recordPlacement. simpl.
  rewrite ownLookup_recordEntry. case_decide; eauto.
Qed.

Lemma ownLookup_recorded type m id n ps :
  (n, id) ∈ ps →
  is_Some (ownLookup (foldl (recordPlacement type) m ps) id type).
Proof.
  revert m. induction ps as [|[n' id'] ps IH]; intros m Hin.
  - by apply elem_of_nil in Hin.
  - simpl. apply elem_of_cons in Hin as [[= <- <-]|Hin]; [|by apply IH].
    apply ownLookup_stays. unfold recordPlacement. simpl.
    rewrite ownLookup_recordEntry. rewrite decide_True by done. eauto.
Qed.

Lemma ownLookup_origin type m id n ps :
  ownLookup (foldl (recordPlacement type) m ps) id type = Some n →
  ownLookup m id type = Some n ∨ (n, id) ∈ ps.
Proof.
  revert m. induction ps as [|[n' id'] ps IH]; intros m Hm; [by left|].
  simpl in Hm. apply IH in Hm as [Hm|Hin].
  - unfold recordPlacement in Hm. simpl in Hm.
    rewrite ownLookup_recordEntry in Hm. case_decide as Hd.
    + destruct Hd as [-> _]. injection Hm as ->. right. by left.
    + by left.
  - right. by right.
Qed.

Lemma ownLookup_empty id type : ownLookup ∅ id type = None.
Proof. unfold ownLookup. by rewrite lookup_empty. Qed.

(** One list processed from a table without entries of that kind. *)
Lemma ownEntries_consistent m l type id :
  ownLookup m id type = None →
  tier_invariant (tiers l) →
  (is_Some (ownLookup (ownEntries m l type) id type) ↔ ranked id (tiers l))
  ∧ (∀ t, t ∈ tiers l → id ∈ cookieIds t →
          ownLookup (ownEntries m l type) id type = Some (tier_name t)).
Proof.
  intros Hnone Hinv. rewrite ownEntries_placements.
  assert (∀ n, ownLookup (foldl (recordPlacement type) m (placements (tiers l))) id type
               = Some n →
               ∃ t, t ∈ tiers l ∧ n = tier_name t ∧ id ∈ cookieIds t) as Hsome.
  { intros n [Hm|Hin]%ownLookup_origin; [congruence|].
    by apply elem_of_placements. }
  assert (∀ t, t ∈ tiers l → id ∈ cookieIds t →
               is_Some (ownLookup (foldl (recordPlacement type) m (placements (tiers l)))
                                   id type)) as Hrec.
  { intros t Ht Hid. apply (ownLookup_recorded _ _ _ (tier_name t)).
    apply elem_of_placements. by exists t. }
  split.
  - split.
    + intros [n (t & Ht & _ & Hid)%Hsome]. by exists t.
    + intros (t & Ht & Hid). eauto.
  - intros t Ht Hid. destruct (Hrec t Ht Hid) as [n Hn]. rewrite Hn. f_equal.
    destruct (Hsome n Hn) as (t' & Ht' & -> & Hid').
    apply list_elem_of_lookup in Ht as [i Hi], Ht' as [j Hj].
    assert (j = i) as -> by eauto. congruence.
Qed.
End Lookup.

(** ** The lookup table and the inherited properties *)

Section PrototypeChain.
Implicit Types (env : ProtoEnv) (m : gmap string CookieTiers) (type : ListKind)
  (id n : string) (st : ProtoEnv * gmap string CookieTiers).

Lemma foldl_recordStep_None type ps : foldl (recordStep type) None ps = None.
Proof. induction ps as [|p ps IH]; [done|]. simpl. exact IH. Qed.

Lemma foldl_recordStep_Some type acc ps st' :
  foldl (recordStep type) acc ps = Some st' → ∃ st, acc = Some st.
Proof.
  destruct acc as [st|]; [eauto|]. by rewrite foldl_recordStep_None.
Qed.

Lemma processTierList_steps st l type :
  processTierList st l type = foldl (recordStep type) (Some st) (placements (tiers l)).
Proof.
  unfold processTierList, placements. generalize (tiers l) as ts, (Some st) as acc.
  induction ts as [|t ts IH]; intros acc; [done|].
  rewrite bind_cons, foldl_app. simpl. rewrite IH. f_equal.
  by rewrite foldl_fmap.
Qed.

Lemma getKind_setKind type type' n e :
  getKind type' (setKind type n e) = if decide (type' = type) then Some n else getKind type' e.
Proof. by destruct type, type'. Qed.

(** *** Identifiers that name no inherited property *)

Lemma getProperty_plain {A} env (own : gmap string A) key :
  ¬ inherited key → onPrototype env = noTiers →
  getProperty env own key
  = match own !! key with Some v => OwnValue v | None => Undefined end.
Proof.
  intros Hk Hp. unfold getProperty. destruct (own !! key); [done|].
  rewrite bool_decide_false by (intros ->; apply Hk; by left).
  rewrite bool_decide_false by (intros Hin; apply Hk; by right).
  unfold inheritedString. rewrite Hp. simpl. by repeat case_bool_decide.
Qed.

Lemma recordTier_plain type n env m id :
  ¬ inherited id → onPrototype env = noTiers →
  recordTier type n (env, m) id = Some (env, recordEntry type n m id).
Proof.
  intros Hid Hp. unfold recordTier, recordEntry. simpl.
  rewrite (getProperty_plain env m id) by done.
  destruct (m !! id) as [e|] eqn:He; simpl.
  - rewrite (getProperty_plain env m id) by done. by rewrite He.
  - rewrite (getProperty_plain env _ id) by done. rewrite lookup_insert_eq.
    by rewrite insert_insert_eq.
Qed.

Lemma foldl_recordStep_plain type env m ps :
  Forall (λ p, ¬ inherited p.2) ps → onPrototype env = noTiers →
  foldl (recordStep type) (Some (env, m)) ps
  = Some (env, foldl (recordPlacement type) m ps).
Proof.
  intros Hps Hp. revert m. induction Hps as [|[n id] ps Hid _ IH]; intros m; [done|].
  cbn [foldl].
  change (recordStep type (Some (env, m)) (n, id)) with (recordTier type n (env, m) id).
  rewrite recordTier_plain by done. apply IH.
Qed.

Lemma processTierList_plain env m l type :
  plainIds l → onPrototype env = noTiers →
  processTierList (env, m) l type = Some (env, ownEntries m l type).
Proof.
  intros Hl Hp. rewrite processTierList_steps, ownEntries_placements.
  apply foldl_recordStep_plain; [|done].
  apply Forall_forall. intros [n id] (t & Ht & -> & Hid)%elem_of_placements.
  by apply (Hl t).
Qed.

Lemma cookieTiersMap_plain env pvpList pveList :
  plainIds pvpList → plainIds pveList → onPrototype env = noTiers →
  cookieTiersMap env pvpList pveList = Some (env, ownTable pvpList pveList).
Proof.
  intros Hpvp Hpve Hp. unfold cookieTiersMap, ownTable.
  rewrite processTierList_plain by done. simpl. by rewrite processTierList_plain.
Qed.

Lemma lookupTier_fresh m id type : lookupTier freshEnv m id type = ownLookup m id type.
Proof.
  unfold lookupTier, ownLookup, getProperty. destruct (m !! id) as [e|]; simpl.
  - unfold readKind. by destruct (getKind type e), type.
  - unfold inheritedString. repeat case_bool_decide; by destruct type.
Qed.

(** *** Every identifier: the last assignment is the one read *)

Lemma held_lookup st id type n :
  held st id type n → lookupTier st.1 st.2 id type = Some n.
Proof.
  unfold held, lookupTier, getProperty, readKind.
  destruct (st.2 !! id) as [e|]; [by intros ->|].
  repeat case_bool_decide; try done; by intros ->.
Qed.

(** [recordTier] by the case of the identifier. *)
Lemma recordTier_cases type n env m id :
  recordTier type n (env, m) id
  = match m !! id with
    | Some e => Some (env, <[id := setKind type n e]> m)
    | None =>
        if bool_decide (id = "__proto__")
        then Some (mkProtoEnv (setKind type n (onPrototype env)) (onBuiltin env), m)
        else if bool_decide (id ∈ builtinMethods)
        then Some (mkProtoEnv (onPrototype env)
                     (<[id := setKind type n (default noTiers (onBuiltin env !! id))]>
                        (onBuiltin env)), m)
        else match inheritedString env id with
             | Some s => if bool_decide (s = "") then Some (env, <[id := setKind type n noTiers]> m)
                         else None
             | None => Some (env, <[id := setKind type n noTiers]> m)
             end
    end.
Proof.
  unfold recordTier, getProperty. simpl.
  destruct (m !! id) as [e|] eqn:He; simpl; [by rewrite He|].
  case_bool_decide; simpl; [by rewrite He|].
  case_bool_decide; simpl; [by rewrite He|].
  destruct (inheritedString env id) as [s|]; simpl.
  - case_bool_decide; simpl.
    + by rewrite lookup_insert_eq, insert_insert_eq.
    + by rewrite He.
  - by rewrite lookup_insert_eq, insert_insert_eq.
Qed.

Lemma recordTier_held type n st id st' :
  recordTier type n st id = Some st' → held st' id type n.
Proof.
  destruct st as [env m]. rewrite recordTier_cases. unfold held.
  destruct (m !! id) as [e|] eqn:He.
  - intros [= <-]. simpl. rewrite lookup_insert_eq, getKind_setKind. by rewrite decide_True.
  - repeat case_bool_decide.
    + intros [= <-]. simpl. rewrite He, getKind_setKind. by rewrite decide_True.
    + intros [= <-]. simpl. rewrite He, lookup_insert_eq. simpl.
      rewrite getKind_setKind. by rewrite decide_True.
    + destruct (inheritedString env id) as [s|]; [case_bool_decide; [|done]|];
        intros [= <-]; simpl; rewrite lookup_insert_eq, getKind_setKind;
        by rewrite decide_True.
Qed.

Lemma recordTier_frame type type' n n' st st' id id' :
  recordTier type' n' st id' = Some st' →
  held st id type n →
  id' ≠ id ∨ type' ≠ type →
  held st' id type n.
Proof.
  destruct st as [env m]. rewrite recordTier_cases. unfold held. simpl.
  intros Hstep Hheld Hne.
  destruct (decide (id' = id)) as [->|Hid].
  - assert (type ≠ type') as Hty by (destruct Hne; congruence).
    destruct (m !! id) as [e|] eqn:He.
    + injection Hstep as <-. simpl.
      rewrite lookup_insert_eq, getKind_setKind. by rewrite decide_False.
    + repeat case_bool_decide; try done.
      * injection Hstep as <-. simpl. rewrite He, getKind_setKind. by rewrite decide_False.
      * injection Hstep as <-. simpl. rewrite He, lookup_insert_eq. simpl.
        rewrite getKind_setKind. by rewrite decide_False.
  - assert (∀ (e : CookieTiers), <[id' := e]> m !! id = m !! id) as Hm
      by (intros e; by rewrite lookup_insert_ne).
    assert (∀ (e : CookieTiers), <[id' := e]> (onBuiltin env) !! id = onBuiltin env !! id)
      as Hb by (intros e; by rewrite lookup_insert_ne).
    destruct (m !! id') as [e'|].
    + injection Hstep as <-. simpl. by rewrite Hm.
    + destruct (decide (id' = "__proto__")) as [Hproto|Hproto].
      * rewrite bool_decide_true in Hstep by done. injection Hstep as <-. simpl.
        destruct (m !! id); [done|].
        rewrite bool_decide_false in Hheld by congruence.
        by rewrite bool_decide_false by congruence.
      * rewrite bool_decide_false in Hstep by done.
        destruct (decide (id' ∈ builtinMethods)) as [Hin|Hin].
        -- rewrite bool_decide_true in Hstep by done. injection Hstep as <-. simpl.
           destruct (m !! id); [done|].
           repeat case_bool_decide; try done. by rewrite Hb.
        -- rewrite bool_decide_false in Hstep by done.
           destruct (inheritedString env id') as [s|].
           ++ destruct (decide (s = "")) as [Hs|Hs].
              ** rewrite bool_decide_true in Hstep by done.
                 injection Hstep as <-. simpl. by rewrite Hm.
              ** by rewrite bool_decide_false in Hstep by done.
           ++ injection Hstep as <-. simpl. by rewrite Hm.
Qed.

(** A name that is held stays held while every later placement of the
    same identifier in the same kind of list carries that name. *)
Lemma held_kept type type' st st' id n ps :
  foldl (recordStep type') (Some st) ps = Some st' →
  held st id type n →
  (type' = type → ∀ n', (n', id) ∈ ps → n' = n) →
  held st' id type n.
Proof.
  revert st. induction ps as [|[n' id'] ps IH]; intros st Hrun Hheld Hall.
  - by injection Hrun as <-.
  - cbn [foldl] in Hrun.
    destruct (recordStep type' (Some st) (n', id')) as [st1|] eqn:Hstep;
      [|by rewrite foldl_recordStep_None in Hrun].
    unfold recordStep in Hstep. simpl in Hstep.
    apply (IH st1 Hrun).
    + destruct (decide (id' = id ∧ type' = type)) as [[-> ->]|Hne].
      * rewrite <-(Hall eq_refl n') by (by left). by eapply recordTier_held.
      * eapply recordTier_frame; [exact Hstep|done|].
        destruct (decide (id' = id)); [right|left]; tauto.
    + intros Heq n'' Hin. apply Hall; [done|by right].
Qed.

Lemma held_last type st st' id n ps :
  foldl (recordStep type) (Some st) ps = Some st' →
  (n, id) ∈ ps →
  (∀ n', (n', id) ∈ ps → n' = n) →
  held st' id type n.
Proof.
  revert st. induction ps as [|[n' id'] ps IH]; intros st Hrun Hin Hall.
  - by apply elem_of_nil in Hin.
  - cbn [foldl] in Hrun.
    destruct (recordStep type (Some st) (n', id')) as [st1|] eqn:Hstep;
      [|by rewrite foldl_recordStep_None in Hrun].
    unfold recordStep in Hstep. simpl in Hstep.
    apply elem_of_cons in Hin as [[= <- <-]|Hin].
    + apply (held_kept type type st1 st' id n ps Hrun).
      * by eapply recordTier_held.
      * intros _ n'' Hin'. apply Hall. by right.
    + apply (IH st1 Hrun Hin). intros n'' Hin'. apply Hall. by right.
Qed.

Lemma plainIds_subset l l' :
  (∀ id, ranked id (tiers l') → ranked id (tiers l)) → plainIds l → plainIds l'.
Proof.
  intros Hsub Hl t id Ht Hid.
  destruct (Hsub id) as (t0 & Ht0 & Hid0); [by exists t|]. by apply (Hl t0).
Qed.
End PrototypeChain.

(** The table of own properties, for lists that each keep every cookie
    identifier in at most one tier. *)
Lemma ownTable_consistent (pvpList pveList : TierList) (id : string) :
  tier_invariant (tiers pvpList) →
  tier_invariant (tiers pveList) →
  let map := ownTable pvpList pveList in
  (is_Some (ownLookup map id Pvp) ↔ ranked id (tiers pvpList))
  ∧ (∀ t, t ∈ tiers pvpList → id ∈ cookieIds t →
          ownLookup map id Pvp = Some (tier_name t))
  ∧ (is_Some (ownLookup map id Pve) ↔ ranked id (tiers pveList))
  ∧ (∀ t, t ∈ tiers pveList → id ∈ cookieIds t →
          ownLookup map id Pve = Some (tier_name t)).
Proof.
  intros Hpvp Hpve map. unfold map, ownTable.
  destruct (ownEntries_consistent ∅ pvpList Pvp id
              (ownLookup_empty id Pvp) Hpvp) as [Hiff Hname].
  assert (ownLookup (ownEntries ∅ pvpList Pvp) id Pve = None) as Hfresh.
  { rewrite ownEntries_placements, ownLookup_other_kind by done.
    apply ownLookup_empty. }
  destruct (ownEntries_consistent _ pveList Pve id Hfresh Hpve) as [Hiff' Hname'].
  assert (ownLookup (ownEntries (ownEntries ∅ pvpList Pvp) pveList Pve) id Pvp
          = ownLookup (ownEntries ∅ pvpList Pvp) id Pvp) as Hkeep.
  { by rewrite (ownEntries_placements _ pveList), ownLookup_other_kind. }
  rewrite Hkeep. done.
Qed.

(** C5. Evaluated on a page where nothing was assigned to the inherited
    properties, for tier lists that each keep every cookie identifier in
    at most one tier and hold no identifier naming an inherited
    property, [cookieTiersMap] completes, leaves the inherited
    properties as they were, and its table has, for every cookie
    identifier, a pvp entry exactly when some tier of the PvP list holds
    the identifier, the entry being the name of the tier holding it;
    likewise for pve and the PvE list. *)
Theorem cookieTiersMap_consistent (pvpList pveList : TierList) (id : string) :
  tier_invariant (tiers pvpList) →
  tier_invariant (tiers pveList) →
  plainIds pvpList →
  plainIds pveList →
  ∃ map,
    cookieTiersMap freshEnv pvpList pveList = Some (freshEnv, map)
    ∧ (is_Some (lookupTier freshEnv map id Pvp) ↔ ranked id (tiers pvpList))
    ∧ (∀ t, t ∈ tiers pvpList → id ∈ cookieIds t →
            lookupTier freshEnv map id Pvp = Some (tier_name t))
    ∧ (is_Some (lookupTier freshEnv map id Pve) ↔ ranked id (tiers pveList))
    ∧ (∀ t, t ∈ tiers pveList → id ∈ cookieIds t →
            lookupTier freshEnv map id Pve = Some (tier_name t)).
Proof.
  intros Hpvp Hpve Hplain Hplain'. exists (ownTable pvpList pveList).
  split; [by apply cookieTiersMap_plain|].
  rewrite !lookupTier_fresh. by apply ownTable_consistent.
Qed.

Lemma cookieTiersMap_consistent_witness :
  let pvpList := mkTierList "pvp-tier-list" "PvP Tier List"
                   [mkTier "S" "S" "bg-red-500" ["x"]] in
  let pveList := mkTierList "pve-tier-list" "PvE Tier List"
                   [mkTier "A" "A" "bg-orange-500" ["x"]] in
  tier_invariant (tiers pvpList)
  ∧ tier_invariant (tiers pveList)
  ∧ plainIds pvpList
  ∧ plainIds pveList
  ∧ ∃ map, cookieTiersMap freshEnv pvpList pveList = Some (freshEnv, map)
           ∧ lookupTier freshEnv map "x" Pvp = Some "S"
           ∧ lookupTier freshEnv map "x" Pve = Some "A".
Proof.
  intros pvpList pveList.
  assert (∀ t, tier_invariant [t]) as Hone.
  { intros t i j ti tj c Hi Hj _ _.
    apply lookup_lt_Some in Hi, Hj. simpl in Hi, Hj. lia. }
  assert (¬ inherited "x") as Hx.
  { intros [Hx|Hx]; [discriminate|].
    by apply (bool_decide_pack ("x" ∈ builtinMethods)) in Hx. }
  assert (plainIds pvpList) as Hp1.
  { intros t id Ht Hid. apply list_elem_of_singleton in Ht as ->.
    by apply list_elem_of_singleton in Hid as ->. }
  assert (plainIds pveList) as Hp2.
  { intros t id Ht Hid. apply list_elem_of_singleton in Ht as ->.
    by apply list_elem_of_singleton in Hid as ->. }
  destruct (cookieTiersMap_consistent pvpList pveList "x" (Hone _) (Hone _) Hp1 Hp2)
    as (map & Hmap & _ & Hpvp & _ & Hpve).
  split_and!; [apply Hone|apply Hone|done|done|].
  exists map. split_and!; [done|..].
  - apply (Hpvp (mkTier "S" "S" "bg-red-500" ["x"])); set_solver.
  - apply (Hpve (mkTier "A" "A" "bg-orange-500" ["x"])); set_solver.
Defined.

(** The claim as the specification words it, for every cookie
    identifier, does not hold.  An identifier that names an inherited
    property is recorded on the inherited object, which outlives the
    table: once "constructor" was ranked in tier S, the table built
    after it was moved to the unranked pool still reports S for it.
    And a tier name assigned through [__proto__] shows as the pvp entry
    of every cookie that has an entry without one: x, ranked in the PvE
    list only, is reported in PvP tier S. *)
Lemma cookieTiersMap_inherited_ids :
  let tierS ids := mkTier "S" "S" "bg-red-500" ids in
  let pvpList ids := mkTierList "pvp-tier-list" "PvP Tier List" [tierS ids] in
  let pveList := mkTierList "pve-tier-list" "PvE Tier List"
                   [mkTier "A" "A" "bg-orange-500" ["x"]] in
  (∀ ids, NoDup ids → tier_invariant (tiers (pvpList ids)))
  ∧ tier_invariant (tiers pveList)
  ∧ (∃ env1 map1 map2,
       cookieTiersMap freshEnv (pvpList ["constructor"]) pveList = Some (env1, map1)
       ∧ moveCookie (pvpList ["constructor"]) "constructor" "unranked" = pvpList []
       ∧ cookieTiersMap env1 (pvpList []) pveList = Some (env1, map2)
       ∧ lookupTier env1 map2 "constructor" Pvp = Some "S"
       ∧ ¬ ranked "constructor" (tiers (pvpList [])))
  ∧ (∃ env map,
       cookieTiersMap freshEnv (pvpList ["__proto__"]) pveList = Some (env, map)
       ∧ lookupTier env map "x" Pvp = Some "S"
       ∧ ¬ ranked "x" (tiers (pvpList ["__proto__"]))).
Proof.
  intros tierS pvpList pveList.
  assert (∀ t, tier_invariant [t]) as Hone.
  { intros t i j ti tj c Hi Hj _ _.
    apply lookup_lt_Some in Hi, Hj. simpl in Hi, Hj. lia. }
  split_and!.
  - intros ids _. apply Hone.
  - apply Hone.
  - eexists _, _, _. split_and!; [vm_compute; reflexivity|reflexivity|
      vm_compute; reflexivity|vm_compute; reflexivity|].
    intros (t & Ht & Hid). apply list_elem_of_singleton in Ht as ->.
    by apply elem_of_nil in Hid.
  - eexists _, _. split_and!; [vm_compute; reflexivity|vm_compute; reflexivity|].
    intros (t & Ht & Hid). apply list_elem_of_singleton in Ht as ->.
    apply list_elem_of_singleton in Hid. discriminate.
Qed.

(** In strict code the evaluation can also throw: once a tier name was
    assigned to [Object.prototype] through [__proto__], the identifier
    "pvp" yields that name, a string, and assigning a property to a
    string is a [TypeError]. *)
Example cookieTiersMap_type_error :
  cookieTiersMap freshEnv
    (mkTierList "pvp-tier-list" "PvP Tier List"
       [mkTier "S" "S" "bg-red-500" ["__proto__"; "pvp"]])
    defaultPveTierList
  = None.
Proof. vm_compute. reflexivity. Qed.

(** ** Search filter *)

Section SearchFilter.
Implicit Types (a b : ascii) (s t u v : string).








Lemma startsWith_spec s t :
  startsWith s t = true ↔ ∃ post, s = t +:+ post.
Proof.
  revert s. induction t as [|b t IH]; intros s; simpl.
  - split; [intros _; by exists s|intros _; by destruct s].
  - destruct s as [|a s].
    + split; [done|by intros [post ?]].
    + simpl. rewrite andb_true_iff, bool_decide_eq_true, IH. split.
      * intros [-> [post ->]]. by exists post.
      * intros [post [= -> ->]]. eauto.
Qed.

Lemma includes_spec s t :
  includes s t = true ↔ ∃ pre post, s = pre +:+ t +:+ post.
Proof.
  induction s as [|a s IH]; cbn [includes]; rewrite orb_true_iff, startsWith_spec.
  - split.
    + intros [[post ->]|?]; [|done]. by exists "", post.
    + intros (pre & post & H). left.
      destruct pre; [by exists post|done].
  - rewrite IH. split.
    + intros [[post ->]|(pre & post & ->)].
      * by exists "", post.
      * by exists (String a pre), post.
    + intros ([|a' pre] & post & H); simpl in H.
      * left. by exists post.
      * injection H as -> ->. right. by exists pre, post.
Qed.

Lemma includes_empty s : includes s "" = true.
Proof. by destruct s. Qed.


Context {host : HostStrings}.

(** The test of the source and the words of the specification agree. *)
Lemma matchesText_spec searchTerm s :
  matchesText searchTerm s ↔ contains_ignore_case s searchTerm.
Proof. unfold matchesText, contains_ignore_case. apply includes_spec. Qed.

Lemma matchesSearch_spec searchTerm (c : Cookie) :
  matchesSearch searchTerm c ↔ contains_ignore_case (cookie_name c) searchTerm.
Proof. apply matchesText_spec. Qed.


Lemma matchesText_empty s : matchesText "" s.
Proof. unfold matchesText. rewrite toLowerCase_empty. apply includes_empty. Qed.

Lemma matchesSearch_empty (c : Cookie) : matchesSearch "" c.
Proof. apply matchesText_empty. Qed.


End SearchFilter.

(** The search filter applied twice with one term is the filter applied
    once. *)
Lemma filteredCookies_idempotent `{HostStrings}
    (cookies : list Cookie) (searchTerm : string) :
  filteredCookies (filteredCookies cookies searchTerm) searchTerm
  = filteredCookies cookies searchTerm.
Proof. unfold filteredCookies. apply list_filter_filter_l. tauto. Qed.



(** ** Cookies snapshot *)

(** C9. A cookies snapshot without documents leaves the built-in default
    cookie (identifier "default-cookie-1", name "GingerBrave", rarity
    "Common", creation date the epoch) as the only cookie, so the cookie
    list is never empty.  A snapshot with documents yields exactly the
    delivered documents and nothing else: as many cookies as documents,
    the cookie at each position carrying the fields of the document at
    that position and its identifier (the stored [id] field where the
    document has one, the document identifier otherwise); the default
    cookie is then not added. *)
Theorem onCookiesSnapshot_default (docs : list (Doc CookieData)) :
  onCookiesSnapshot [] = [defaultCookie]
  ∧ (docs ≠ [] →
     length (onCookiesSnapshot docs) = length docs
     ∧ ∀ i d, docs !! i = Some d →
         ∃ c, onCookiesSnapshot docs !! i = Some c
              ∧ cookie_data c = doc_data d
              ∧ cookie_id c = match stored_id d with
                              | Some id => id
                              | None => doc_id d
                              end)
  ∧ onCookiesSnapshot docs ≠ []
  ∧ cookie_id defaultCookie = "default-cookie-1"
  ∧ cookie_name defaultCookie = "GingerBrave"
  ∧ cookie_rarity defaultCookie = "Common"
  ∧ createdAt (cookie_data defaultCookie) = JsDate 0
  ∧ timeOf defaultCookie = 0%Z.
Proof.
  split_and!; try reflexivity.
  - intros Hne.
    assert (onCookiesSnapshot docs = docToCookie <$> docs) as ->.
    { unfold onCookiesSnapshot. by destruct docs. }
    split; [by rewrite length_fmap|].
    intros i d Hd. exists (docToCookie d). rewrite list_lookup_fmap, Hd.
    split_and!; [done|done|]. unfold docToCookie, merged_id. simpl.
    by destruct (stored_id d).
  - unfold onCookiesSnapshot. by destruct docs.
Qed.

(** ** Cookie deletion *)

Section Deletion.
Implicit Types (id : string) (l : TierList) (ts : list Tier).

Lemma purgeTiers_changed id l :
  purgeTiers id l ≠ tiers l ↔ ranked id (tiers l).
Proof.
  unfold purgeTiers. split.
  - intros Hne. destruct (decide (Exists (λ t, id ∈ cookieIds t) (tiers l)))
      as [Hex|Hnex].
    + apply Exists_exists in Hex as (t & Ht & Hid). by exists t.
    + destruct Hne. apply fmap_withoutCookie_not_ranked.
      intros (t & Ht & Hid). apply Hnex, Exists_exists. by exists t.
  - intros Hr Heq. apply (not_ranked_without id (tiers l)). by rewrite Heq.
Qed.

Lemma purgeTierList_ranked id l :
  list_id l ≠ "" → ranked id (tiers l) →
  purgeTierList id l = [SetDocMerge "tierlists" (list_id l) (TierListPayload (purged id l))].
Proof.
  intros Hid Hr. unfold purgeTierList.
  rewrite bool_decide_true by by apply purgeTiers_changed.
  unfold handleSaveTierList, saveData. simpl. by rewrite bool_decide_false.
Qed.

Lemma purgeTierList_not_ranked id l :
  ¬ ranked id (tiers l) → purgeTierList id l = [].
Proof.
  intros Hr. unfold purgeTierList.
  rewrite bool_decide_false; [done|]. by rewrite purgeTiers_changed.
Qed.

Lemma ranked_or_not id l : ranked id (tiers l) ∨ ¬ ranked id (tiers l).
Proof.
  destruct (decide (purgeTiers id l ≠ tiers l)) as [H|H];
    rewrite purgeTiers_changed in H; tauto.
Qed.

Lemma applyWrite_same l l' :
  applyWrite l (SetDocMerge "tierlists" (list_id l) (TierListPayload l')) = l'.
Proof. simpl. by rewrite bool_decide_true. Qed.

Lemma applyWrite_other l l' key :
  key ≠ list_id l →
  applyWrite l (SetDocMerge "tierlists" key (TierListPayload l')) = l.
Proof. intros Hne. simpl. by rewrite bool_decide_false. Qed.

Lemma applyWrites_app l (ws1 ws2 : list Write) :
  applyWrites l (ws1 ++ ws2) = applyWrites (applyWrites l ws1) ws2.
Proof. apply foldl_app. Qed.

Lemma applyWrites_purge_other id l other :
  list_id other ≠ list_id l → applyWrites l (purgeTierList id other) = l.
Proof.
  intros Hne. unfold purgeTierList. case_bool_decide; [|done].
  unfold handleSaveTierList, saveData. case_bool_decide; [done|].
  unfold applyWrites. cbn [foldl]. by apply applyWrite_other.
Qed.

Lemma applyWrites_purge_self id l :
  list_id l ≠ "" →
  ¬ ranked id (tiers (applyWrites l (purgeTierList id l))).
Proof.
  intros Hid. destruct (ranked_or_not id l) as [Hr|Hr].
  - rewrite purgeTierList_ranked by done. unfold applyWrites. cbn [foldl].
    rewrite applyWrite_same. apply not_ranked_without.
  - by rewrite purgeTierList_not_ranked.
Qed.

Lemma applyWrites_purge_self_subset id l d :
  list_id l ≠ "" →
  ranked d (tiers (applyWrites l (purgeTierList id l))) → ranked d (tiers l).
Proof.
  intros Hid. destruct (ranked_or_not id l) as [Hr|Hr].
  - rewrite purgeTierList_ranked by done. unfold applyWrites. cbn [foldl].
    rewrite applyWrite_same. simpl. unfold purgeTiers.
    intros (t & Ht & Hd). apply list_elem_of_fmap in Ht as (t0 & -> & Ht0).
    apply elem_of_withoutCookie in Hd as [Hd _]. by exists t0.
  - by rewrite purgeTierList_not_ranked.
Qed.

Lemma purged_tiers id l :
  Forall2 (λ t t', tier_id t' = tier_id t ∧ tier_name t' = tier_name t
                   ∧ tier_color t' = tier_color t
                   ∧ cookieIds t' = filter (λ i, i ≠ id) (cookieIds t)
                   ∧ (id ∉ cookieIds t → t' = t))
          (tiers l) (tiers (purged id l)).
Proof.
  simpl. unfold purgeTiers. apply Forall2_fmap_r, Forall_Forall2_diag, Forall_forall.
  intros t _. split_and!; try done. apply withoutCookie_absent.
Qed.
End Deletion.

(** C10. Deleting a cookie issues, in this order, a write of the PvP
    list if some PvP tier held the cookie, a write of the PvE list if
    some PvE tier held it, and last the deletion of the cookie document.
    A written list has the cookie removed from every tier, every tier
    keeping its identifier, name, colour and other cookies, and tiers
    that did not hold the cookie are unchanged; once the writes are
    applied neither list holds the cookie. *)
Theorem handleDelete_cookie_purges_tier_lists
    (pvpList pveList : TierList) (cookies : list Cookie) (id : string) :
  list_id pvpList = "pvp-tier-list" →
  list_id pveList = "pve-tier-list" →
  let ws := handleDelete true pvpList pveList cookies "cookies" id in
  ws = (purgeTierList id pvpList ++ purgeTierList id pveList
        ++ [DeleteDoc "cookies" id])%list
  ∧ (∀ l, l ∈ [pvpList; pveList] →
       (ranked id (tiers l) →
        purgeTierList id l
        = [SetDocMerge "tierlists" (list_id l) (TierListPayload (purged id l))])
       ∧ (¬ ranked id (tiers l) → purgeTierList id l = [])
       ∧ list_id (purged id l) = list_id l
       ∧ list_name (purged id l) = list_name l
       ∧ Forall2 (λ t t', tier_id t' = tier_id t ∧ tier_name t' = tier_name t
                          ∧ tier_color t' = tier_color t
                          ∧ cookieIds t' = filter (λ i, i ≠ id) (cookieIds t)
                          ∧ (id ∉ cookieIds t → t' = t))
                 (tiers l) (tiers (purged id l))
       ∧ ¬ ranked id (tiers (applyWrites l ws))).
Proof.
  intros Hpvp Hpve ws.
  assert (ws = (purgeTierList id pvpList ++ purgeTierList id pveList
                ++ [DeleteDoc "cookies" id])%list) as Hws.
  { unfold ws, handleDelete. simpl. by rewrite <-app_assoc. }
  split; [exact Hws|].
  assert (∀ l, list_id l ≠ "" →
               (ranked id (tiers l) →
                purgeTierList id l
                = [SetDocMerge "tierlists" (list_id l) (TierListPayload (purged id l))])
               ∧ (¬ ranked id (tiers l) → purgeTierList id l = [])) as Hcases.
  { intros l Hl. split; [by apply purgeTierList_ranked|apply purgeTierList_not_ranked]. }
  assert (∀ l, ¬ ranked id (tiers (purged id l))) as Hpurged.
  { intros l. apply not_ranked_without. }
  intros l Hl. rewrite Hws.
  destruct (Hcases pvpList) as [Hp1 Hp0]; [by rewrite Hpvp|].
  destruct (Hcases pveList) as [He1 He0]; [by rewrite Hpve|].
  assert (l = pvpList ∨ l = pveList) as Hwhich.
  { apply elem_of_cons in Hl as [->|Hl]; [by left|].
    apply list_elem_of_singleton in Hl as ->. by right. }
  assert (list_id pveList ≠ list_id pvpList) as Hne by (by rewrite Hpvp, Hpve).
  destruct Hwhich as [->| ->];
    (split_and!; [done|done|done|done|apply purged_tiers|]);
    rewrite !applyWrites_app; unfold applyWrites at 1; cbn [foldl applyWrite].
  - rewrite (applyWrites_purge_other id _ pveList).
    + apply applyWrites_purge_self. by rewrite Hpvp.
    + destruct (ranked_or_not id pvpList) as [Hr|Hr].
      * rewrite (Hp1 Hr). unfold applyWrites. cbn [foldl].
        by rewrite applyWrite_same.
      * by rewrite (Hp0 Hr).
  - rewrite (applyWrites_purge_other id _ pvpList) by done.
    apply applyWrites_purge_self. by rewrite Hpve.
Qed.

Lemma handleDelete_cookie_purges_tier_lists_witness :
  let pvpList := mkTierList "pvp-tier-list" "PvP Tier List"
                   [mkTier "S" "S" "bg-red-500" ["x"; "y"];
                    mkTier "A" "A" "bg-orange-500" ["z"]] in
  list_id pvpList = "pvp-tier-list"
  ∧ list_id defaultPveTierList = "pve-tier-list"
  ∧ handleDelete true pvpList defaultPveTierList [] "cookies" "x"
    = [SetDocMerge "tierlists" "pvp-tier-list"
         (TierListPayload
            (mkTierList "pvp-tier-list" "PvP Tier List"
               [mkTier "S" "S" "bg-red-500" ["y"];
                mkTier "A" "A" "bg-orange-500" ["z"]]));
       DeleteDoc "cookies" "x"]
  ∧ ¬ ranked "x"
        (tiers (applyWrites pvpList
                  (handleDelete true pvpList defaultPveTierList [] "cookies" "x"))).
Proof.
  intros pvpList.
  destruct (handleDelete_cookie_purges_tier_lists
              pvpList defaultPveTierList [] "x" eq_refl eq_refl) as [Hws Hall].
  split; [reflexivity|]. split; [reflexivity|]. split.
  - rewrite Hws. reflexivity.
  - apply (Hall pvpList). by left.
Defined.

(** ** Default tiers and the store *)

Section DefaultTiers.
Implicit Types (h : list Tier) (data : list (Doc TierListData)).

(** The store keeps its objects where they are when a snapshot is
    loaded; delivered tier objects are added behind them. *)
Lemma loadTierList_extends h key data dflt :
  ∃ added, (loadTierList h key data dflt).1 = (h ++ added)%list.
Proof.
  unfold loadTierList. destruct (list_find _ _) as [[i d]|]; simpl.
  - destruct (data_tiers (doc_data d)); simpl; [eauto|].
    exists []. by rewrite app_nil_r.
  - exists []. by rewrite app_nil_r.
Qed.

Lemma read_default_refs h added :
  take 4 h = defaultTiers →
  mapM (λ r, (h ++ added)%list !! r) defaultTiersRef = Some defaultTiers.
Proof.
  intros Htake.
  destruct h as [|t0 [|t1 [|t2 [|t3 h]]]]; try done.
  by injection Htake as -> -> -> ->.
Qed.

(** The fallback hands out the objects the store holds at the default
    positions. *)
Lemma loadTierList_fallback h key data dflt :
  obj_tiers dflt = defaultTiersRef →
  (list_find (λ d, merged_id d = key) data = None
   ∨ ∃ i d, list_find (λ d, merged_id d = key) data = Some (i, d)
            ∧ data_tiers (doc_data d) = NotAnArray) →
  (loadTierList h key data dflt).1 = h
  ∧ obj_tiers (loadTierList h key data dflt).2 = defaultTiersRef.
Proof.
  intros Hd [Hnone|(i & d & Hfind & Htiers)]; unfold loadTierList.
  - by rewrite Hnone.
  - by rewrite Hfind, Htiers.
Qed.
End DefaultTiers.

(** While the four default tier objects are as loaded, a missing
    document and a document whose [tiers] is not an array both give the
    seed tiers S, A, B, C, for either list. *)
Lemma onTierListsSnapshot_seed (h : list Tier) (data : list (Doc TierListData)) :
  take 4 h = defaultTiers →
  let '(h', (pvpData, pveData)) := onTierListsSnapshot h data in
  ((list_find (λ d, merged_id d = "pvp-tier-list") data = None
    ∨ ∃ i d, list_find (λ d, merged_id d = "pvp-tier-list") data = Some (i, d)
             ∧ data_tiers (doc_data d) = NotAnArray) →
   readTiers h' pvpData = Some defaultTiers)
  ∧ ((list_find (λ d, merged_id d = "pve-tier-list") data = None
      ∨ ∃ i d, list_find (λ d, merged_id d = "pve-tier-list") data = Some (i, d)
               ∧ data_tiers (doc_data d) = NotAnArray) →
     readTiers h' pveData = Some defaultTiers).
Proof.
  intros Htake. unfold onTierListsSnapshot.
  destruct (loadTierList h "pvp-tier-list" data defaultPvpObj) as [h1 pvpData] eqn:E1.
  destruct (loadTierList h1 "pve-tier-list" data defaultPveObj) as [h2 pveData] eqn:E2.
  destruct (loadTierList_extends h "pvp-tier-list" data defaultPvpObj) as [a1 Ha1].
  destruct (loadTierList_extends h1 "pve-tier-list" data defaultPveObj) as [a2 Ha2].
  rewrite E1 in Ha1. rewrite E2 in Ha2. simpl in Ha1, Ha2. subst h1 h2.
  split; intros Hcase; unfold readTiers.
  - destruct (loadTierList_fallback h "pvp-tier-list" data defaultPvpObj eq_refl Hcase)
      as [_ Hrefs].
    rewrite E1 in Hrefs. simpl in Hrefs. rewrite Hrefs, <-app_assoc.
    by apply read_default_refs.
  - destruct (loadTierList_fallback (h ++ a1) "pve-tier-list" data defaultPveObj
                eq_refl Hcase) as [_ Hrefs].
    rewrite E2 in Hrefs. simpl in Hrefs. rewrite Hrefs, <-app_assoc.
    by apply read_default_refs.
Qed.

(** C6. The fallback for a missing or malformed tier-list document hands
    out the shared default tier objects, and the tier editor assigns into
    them: after the first snapshot (no documents) both lists read S, A,
    B, C; renaming the first PvP tier to "SS" in the editor and saving
    makes the next snapshot, which has no PvE document, read the PvE
    list as SS, A, B, C; a PvE document whose [tiers] is not an array
    reads the same. *)
Theorem default_tiers_renamed_through_editor :
  let seed' := [ mkTier "S" "SS" "bg-red-500" [];
                 mkTier "A" "A" "bg-orange-500" [];
                 mkTier "B" "B" "bg-yellow-500" [];
                 mkTier "C" "C" "bg-green-500" [] ] in
  let legacy := mkDoc "pve-tier-list" (Some "pve-tier-list")
                  (mkTierListData "PvE Tier List" NotAnArray) in
  let '(h1, (pvp1, pve1)) := onTierListsSnapshot storeAtLoad [] in
  readTiers h1 pvp1 = Some defaultTiers
  ∧ readTiers h1 pve1 = Some defaultTiers
  ∧ match handleTierChange h1 (obj_tiers pvp1) 0 FieldName "SS" with
    | None => False
    | Some (h2, editorTiers) =>
        readTiers h2 pve1 = Some seed'
        ∧ match editorSave h2 pvp1 editorTiers with
          | None => False
          | Some saved =>
              (let '(h3, (pvp3, pve3)) := onTierListsSnapshot h2 [saved] in
               readTiers h3 pvp3 = Some seed'
               ∧ readTiers h3 pve3 = Some seed'
               ∧ readTiers h3 pve3 ≠ Some defaultTiers)
              ∧ (let '(h3, (pvp3, pve3)) := onTierListsSnapshot h2 [saved; legacy] in
                 readTiers h3 pve3 = Some seed'
                 ∧ readTiers h3 pve3 ≠ Some defaultTiers)
          end
    end.
Proof. vm_compute. repeat split; discriminate. Qed.

(** ** Sorting *)

Section JsSort.
Context {A : Type} (cmp : A → A → JsNumber).
Implicit Types (x y : A) (l : list A).

Lemma sortInsert_perm x l : sortInsert cmp x l ≡ₚ x :: l.
Proof.
  induction l as [|y l IH]; simpl; [done|].
  destruct (js_positive (cmp x y)); [|done].
  rewrite IH. apply Permutation_swap.
Qed.

Lemma js_sort_perm l : js_sort cmp l ≡ₚ l.
Proof.
  induction l as [|x l IH]; simpl; [done|].
  unfold js_sort in *. simpl. by rewrite sortInsert_perm, IH.
Qed.

Hypothesis total : ∀ x y, ¬ notAfter cmp x y → notAfter cmp y x.
Hypothesis trans : ∀ x y z, notAfter cmp x y → notAfter cmp y z → notAfter cmp x z.

Lemma sortInsert_sorted x l :
  StronglySorted (notAfter cmp) l → StronglySorted (notAfter cmp) (sortInsert cmp x l).
Proof.
  induction l as [|y l IH]; intros Hl; simpl.
  - repeat constructor.
  - apply StronglySorted_cons in Hl as [Hy Hl].
    destruct (js_positive (cmp x y)) eqn:Hxy.
    + apply StronglySorted_cons. split; [|by apply IH].
      rewrite sortInsert_perm. constructor; [|done].
      apply total. unfold notAfter. by rewrite Hxy.
    + apply StronglySorted_cons. split.
      * constructor; [done|]. eapply Forall_impl; [exact Hy|].
        intros z Hz. by apply (trans x y z).
      * by apply StronglySorted_cons.
Qed.

Lemma js_sort_sorted l : StronglySorted (notAfter cmp) (js_sort cmp l).
Proof.
  induction l as [|x l IH]; simpl; [constructor|].
  by apply sortInsert_sorted.
Qed.
End JsSort.

Lemma StronglySorted_lookup_lt {A} (R : relation A) (l : list A) i j x y :
  StronglySorted R l → l !! i = Some x → l !! j = Some y → (i < j)%nat → R x y.
Proof.
  intros Hl. revert i j. induction Hl as [|z l Hl IH Hz]; intros i j Hi Hj Hlt.
  - done.
  - destruct j as [|j]; [lia|]. destruct i as [|i]; simpl in *.
    + injection Hi as ->. rewrite Forall_forall in Hz.
      apply Hz. by eapply list_elem_of_lookup_2.
    + apply (IH i j); [done|done|lia].
Qed.

Section RaritySort.
Variable localeCompare : string → string → JsNumber.
Variable rarities : list Attribute.
Implicit Types (a b c : Cookie).

(** [indexOf] never yields a nullish value, so the [?? Infinity] of the
    comparator never applies. *)
Lemma rarityRank_indexOf (rarityOrder : list string) (r : string) :
  rarityRank rarityOrder r = indexOf rarityOrder r.
Proof. reflexivity. Qed.

Lemma indexOf_spec (xs : list string) (x : string) :
  ∃ z : Z, indexOf xs x = Fin z ∧ (-1 ≤ z)%Z ∧ (z = -1 ↔ x ∉ xs)%Z.
Proof.
  unfold indexOf. destruct (list_find _ xs) as [[i y]|] eqn:Hfind.
  - apply list_find_Some in Hfind as (Hi & -> & _).
    exists (Z.of_nat i). split; [done|]. split; [lia|]. split; [lia|].
    intros Hnot. destruct Hnot. by eapply list_elem_of_lookup_2.
  - exists (-1)%Z. split; [done|]. split; [lia|]. split; [|done].
    intros _ Hin. apply list_find_None in Hfind.
    rewrite Forall_forall in Hfind. by apply (Hfind x).
Qed.

(** The rank the comparator uses, as an integer. *)
Lemma rank_of a :
  ∃ z : Z, rarityRank (attr_name <$> rarities) (cookie_rarity a) = Fin z
           ∧ (-1 ≤ z)%Z
           ∧ (z = -1 ↔ cookie_rarity a ∉ attr_name <$> rarities)%Z.
Proof. rewrite rarityRank_indexOf. apply indexOf_spec. Qed.

Lemma compare_rarity_asc a b za zb :
  rarityRank (attr_name <$> rarities) (cookie_rarity a) = Fin za →
  rarityRank (attr_name <$> rarities) (cookie_rarity b) = Fin zb →
  notAfter (compareCookies localeCompare (mkSort SortRarity Asc) rarities) a b
  ↔ (za < zb ∨ (za = zb ∧ timeOf a ≤ timeOf b))%Z.
Proof.
  intros Ha Hb. unfold notAfter, compareCookies.
  cbn [sort_option direction]. rewrite Ha, Hb. cbn [js_sub].
  destruct (decide (za - zb = 0)%Z) as [Hz|Hz].
  - rewrite Hz. cbn [js_is_zero js_positive]. rewrite bool_decide_eq_false. lia.
  - assert (js_is_zero (Fin (za - zb)) = false) as ->.
    { unfold js_is_zero. by destruct (za - zb)%Z. }
    cbn [js_positive]. rewrite bool_decide_eq_false. lia.
Qed.

Lemma compare_rarity_asc_total a b :
  ¬ notAfter (compareCookies localeCompare (mkSort SortRarity Asc) rarities) a b →
  notAfter (compareCookies localeCompare (mkSort SortRarity Asc) rarities) b a.
Proof.
  destruct (rank_of a) as (za & Ha & _), (rank_of b) as (zb & Hb & _).
  rewrite (compare_rarity_asc a b za zb), (compare_rarity_asc b a zb za) by done.
  lia.
Qed.

Lemma compare_rarity_asc_trans a b c :
  notAfter (compareCookies localeCompare (mkSort SortRarity Asc) rarities) a b →
  notAfter (compareCookies localeCompare (mkSort SortRarity Asc) rarities) b c →
  notAfter (compareCookies localeCompare (mkSort SortRarity Asc) rarities) a c.
Proof.
  destruct (rank_of a) as (za & Ha & _), (rank_of b) as (zb & Hb & _),
           (rank_of c) as (zc & Hc & _).
  rewrite (compare_rarity_asc a b za zb), (compare_rarity_asc b c zb zc),
          (compare_rarity_asc a c za zc) by done.
  lia.
Qed.

(** What the code does for every input: under rarity / ascending, a
    cookie whose rarity the registry lacks stands before every cookie
    whose rarity the registry has. *)
Lemma absent_rarity_before_present (filtered : list Cookie) (i j : nat) a b :
  sortedCookies localeCompare (mkSort SortRarity Asc) rarities filtered !! i = Some a →
  sortedCookies localeCompare (mkSort SortRarity Asc) rarities filtered !! j = Some b →
  cookie_rarity a ∉ attr_name <$> rarities →
  cookie_rarity b ∈ attr_name <$> rarities →
  (i < j)%nat.
Proof.
  intros Hi Hj Ha Hb.
  destruct (rank_of a) as (za & Hza & _ & Habs), (rank_of b) as (zb & Hzb & Hge & Hpres).
  assert (za = -1)%Z as -> by by apply Habs.
  assert (zb ≠ -1)%Z as Hzb' by (intros Heq; by apply Hpres in Heq).
  destruct (decide (i < j)%nat) as [|Hnlt]; [done|exfalso].
  assert (i ≠ j) as Hne.
  { intros ->. rewrite Hi in Hj. injection Hj as ->. done. }
  assert (notAfter (compareCookies localeCompare (mkSort SortRarity Asc) rarities) b a)
    as Hba.
  { eapply (StronglySorted_lookup_lt _ _ j i); [|exact Hj|exact Hi|lia].
    apply js_sort_sorted;
      [apply compare_rarity_asc_total|apply compare_rarity_asc_trans]. }
  rewrite (compare_rarity_asc b a zb (-1)) in Hba by done. lia.
Qed.
End RaritySort.

(** C1. With registry rarities Common, Rare, Epic and cookies a (Epic),
    b (Common), x (a rarity the registry lacks), sorting by rarity
    ascending puts x first, not last: [indexOf] gives -1 for the missing
    rarity and the [?? Infinity] never applies.  The unranked pool of
    the tier-list view orders the same cookies the same way. *)
Theorem absent_rarity_sorts_first {host : HostStrings}
    (localeCompare : string → string → JsNumber) :
  let rarities := [ mkAttribute "r1" "Common" None false;
                    mkAttribute "r2" "Rare" None false;
                    mkAttribute "r3" "Epic" None true ] in
  let cookie id r :=
    mkCookie id (mkCookieData id "" "" "" r "" "" "" "" "" [] [] NoTimestamp None) in
  let a := cookie "a" "Epic" in
  let b := cookie "b" "Common" in
  let x := cookie "x" "Mystery" in
  sortedCookies localeCompare (mkSort SortRarity Asc) rarities [a; b; x] = [x; b; a]
  ∧ unrankedCookies [a; b; x] defaultTiers "" rarities = [x; b; a]
  ∧ rarityRank (attr_name <$> rarities) "Mystery" = Fin (-1)
  ∧ spec_rarityRank (attr_name <$> rarities) "Mystery" = PosInf.
Proof.
  intros rarities cookie a b x. split_and!; try reflexivity.
  unfold unrankedCookies.
  assert (∀ c, (cookie_id c ∉ allRankedCookies defaultTiers) ∧ matchesSearch "" c) as Hall.
  { intros c. split; [|apply matchesSearch_empty].
    unfold allRankedCookies. simpl. apply not_elem_of_empty. }
  rewrite !filter_cons_True by apply Hall. reflexivity.
Qed.

Example scenario1_and_2 (localeCompare : string → string → JsNumber) :
  let rarities := [ mkAttribute "r1" "Common" None false;
                    mkAttribute "r2" "Rare" None false;
                    mkAttribute "r3" "Epic" None true ] in
  let cookie id r :=
    mkCookie id (mkCookieData id "" "" "" r "" "" "" "" "" [] [] NoTimestamp None) in
  sortedCookies localeCompare (mkSort SortRarity Asc) rarities
    [cookie "A" "Epic"; cookie "B" "Common"; cookie "C" "Rare"]
  = [cookie "B" "Common"; cookie "C" "Rare"; cookie "A" "Epic"]
  ∧ sortedCookies localeCompare (mkSort SortRarity Desc) rarities
      [cookie "A" "Epic"; cookie "B" "Common"; cookie "C" "Rare"]
    = [cookie "A" "Epic"; cookie "C" "Rare"; cookie "B" "Common"].
Proof. split; reflexivity. Qed.

(** * Further properties *)

(** ** Where a move puts the cookie *)

Section MovePlacement.
Implicit Types (c d target : string) (t : Tier) (ts : list Tier) (l : TierList).

Lemma dropTiers_found c target ts k t :
  target ≠ "unranked" →
  ts !! k = Some t → tier_id t = target →
  (∀ j tj, ts !! j = Some tj → (j < k)%nat → tier_id tj ≠ target) →
  dropTiers c target ts = alter (pushCookie c) k (withoutCookie c <$> ts).
Proof.
  intros Htarget Hk Hid Hfirst. unfold dropTiers.
  rewrite bool_decide_true by done.
  assert (list_find (λ t, tier_id t = target) (withoutCookie c <$> ts)
          = Some (k, withoutCookie c t)) as ->; [|done].
  apply list_find_Some. split_and!.
  - by rewrite list_lookup_fmap, Hk.
  - done.
  - intros j tj Hj Hlt. apply list_lookup_fmap_Some in Hj as (tj' & -> & Hj).
    simpl. by apply (Hfirst j).
Qed.

Lemma dropTiers_depends_on_rest c target ts ts' :
  withoutCookie c <$> ts = withoutCookie c <$> ts' →
  dropTiers c target ts = dropTiers c target ts'.
Proof. intros Heq. unfold dropTiers. by rewrite Heq. Qed.

Lemma fmap_withoutCookie_dropTiers c target ts :
  withoutCookie c <$> dropTiers c target ts = withoutCookie c <$> ts.
Proof.
  destruct (dropTiers_shape c target ts) as [->|[k ->]].
  - apply fmap_withoutCookie_idemp.
  - apply fmap_withoutCookie_push.
Qed.

Lemma dropTiers_keeps c target ts :
  Forall2 (λ t t', tier_id t' = tier_id t ∧ tier_name t' = tier_name t
                   ∧ tier_color t' = tier_color t
                   ∧ filter (λ i, i ≠ c) (cookieIds t') = filter (λ i, i ≠ c) (cookieIds t))
          ts (dropTiers c target ts).
Proof.
  assert (Forall2 (λ t t', tier_id t' = tier_id t ∧ tier_name t' = tier_name t
                   ∧ tier_color t' = tier_color t
                   ∧ filter (λ i, i ≠ c) (cookieIds t') = filter (λ i, i ≠ c) (cookieIds t))
                  ts (withoutCookie c <$> ts)) as Hbase.
  { apply Forall2_fmap_r, Forall_Forall2_diag, Forall_forall. intros t _.
    split_and!; try done. simpl. apply list_filter_filter_l. tauto. }
  destruct (dropTiers_shape c target ts) as [->|[k ->]]; [done|].
  apply Forall2_alter_r; [done|].
  intros t t' _ _ (Hid & Hname & Hcolor & Hids). split_and!; try done.
  simpl. rewrite filter_app, filter_cons_False, filter_nil, app_nil_r by (intros ?; done).
  done.
Qed.
End MovePlacement.

(** X1. A move of a cookie onto an existing tier (not the unranked pool)
    leaves the cookie as the last entry of the first tier carrying the
    target identifier, and in no other tier. *)
Theorem moveCookie_places (l : TierList) (c target : string) (k : nat) (t : Tier) :
  c ≠ "" → target ≠ "unranked" →
  tiers l !! k = Some t → tier_id t = target →
  (∀ j tj, tiers l !! j = Some tj → (j < k)%nat → tier_id tj ≠ target) →
  tiers (moveCookie l c target) !! k
    = Some (mkTier (tier_id t) (tier_name t) (tier_color t)
                   (filter (λ i, i ≠ c) (cookieIds t) ++ [c]))
  ∧ (∀ j tj, tiers (moveCookie l c target) !! j = Some tj → c ∈ cookieIds tj → j = k).
Proof.
  intros Hc Htarget Hk Hid Hfirst.
  rewrite moveCookie_tiers, bool_decide_false by done.
  rewrite (dropTiers_found c target (tiers l) k t) by done. split.
  - by rewrite list_lookup_alter_eq, list_lookup_fmap, Hk.
  - intros j tj Hj Hin. destruct (decide (j = k)) as [|Hne]; [done|exfalso].
    rewrite list_lookup_alter_ne in Hj by done.
    apply list_lookup_fmap_Some in Hj as (tj' & -> & _).
    apply elem_of_withoutCookie in Hin. tauto.
Qed.

Lemma moveCookie_places_witness :
  let l := mkTierList "pvp-tier-list" "PvP Tier List"
             [mkTier "S" "S" "bg-red-500" ["x"; "y"];
              mkTier "A" "A" "bg-orange-500" ["z"]] in
  tiers (moveCookie l "x" "A") !! 1%nat
    = Some (mkTier "A" "A" "bg-orange-500" ["z"; "x"])
  ∧ (∀ j tj, tiers (moveCookie l "x" "A") !! j = Some tj → "x" ∈ cookieIds tj → j = 1%nat).
Proof.
  intros l.
  apply (moveCookie_places l "x" "A" 1 (mkTier "A" "A" "bg-orange-500" ["z"]));
    try done.
  intros [|j] tj Hj Hlt; [|lia]. by injection Hj as <-.
Defined.

(** X2. A second move of the same cookie overrides the first: moving a
    cookie to one target and then to another gives the list that moving
    it to the second target alone gives. *)
Theorem moveCookie_last_move_wins (l : TierList) (c target1 target2 : string) :
  moveCookie (moveCookie l c target1) c target2 = moveCookie l c target2.
Proof.
  unfold moveCookie, handleDrop, falsy.
  case_bool_decide as Hc; simpl.
  - by rewrite ?bool_decide_true.
  - rewrite ?bool_decide_false by done. simpl. f_equal.
    apply dropTiers_depends_on_rest, fmap_withoutCookie_dropTiers.
Qed.

(** X3. A move changes nothing but the placement of the moved cookie:
    the list keeps its identifier, name and number of tiers, each tier
    keeps its identifier, name and colour, and the other cookies of each
    tier stay in it in the same order. *)
Theorem moveCookie_keeps_the_rest (l : TierList) (c target : string) :
  list_id (moveCookie l c target) = list_id l
  ∧ list_name (moveCookie l c target) = list_name l
  ∧ Forall2 (λ t t', tier_id t' = tier_id t ∧ tier_name t' = tier_name t
                     ∧ tier_color t' = tier_color t
                     ∧ filter (λ i, i ≠ c) (cookieIds t')
                       = filter (λ i, i ≠ c) (cookieIds t))
            (tiers l) (tiers (moveCookie l c target)).
Proof.
  rewrite moveCookie_tiers. unfold moveCookie, handleDrop, falsy.
  case_bool_decide; simpl; split_and!; try done.
  - by apply Forall_Forall2_diag, Forall_forall.
  - apply dropTiers_keeps.
Qed.

(** ** Tier editor operations *)

Section TierEditor.
Implicit Types (c : string) (t : Tier) (ts : list Tier).

Lemma filter_index_all (m n : nat) ts :
  (m < n)%nat →
  (filter (λ p, p.1 ≠ m) (imap (λ i t, ((n + i)%nat, t)) ts)).*2 = ts.
Proof.
  revert n. induction ts as [|t ts IH]; intros n Hlt; [done|].
  rewrite imap_cons, filter_cons_True by (simpl; lia). csimpl. f_equal.
  rewrite <-(IH (S n)) at 2 by lia. do 2 f_equal.
  apply imap_ext. intros i x _. simpl. f_equal. lia.
Qed.

Lemma removeTier_shifted (n index : nat) ts :
  (filter (λ p, p.1 ≠ (n + index)%nat) (imap (λ i t, ((n + i)%nat, t)) ts)).*2
  = delete index ts.
Proof.
  revert n index. induction ts as [|t ts IH]; intros n index; [done|].
  rewrite imap_cons. destruct index as [|index].
  - rewrite filter_cons_False by (simpl; lia). simpl.
    rewrite <-(filter_index_all (n + 0) (S n) ts) at 2 by lia. do 2 f_equal.
    apply imap_ext. intros i x _. simpl. f_equal. lia.
  - rewrite filter_cons_True by (simpl; lia). csimpl. f_equal.
    rewrite <-(IH (S n) index). f_equal.
    replace (n + S index)%nat with (S n + index)%nat by lia. f_equal.
    apply imap_ext. intros i x _. simpl. f_equal. lia.
Qed.

Lemma removeTier_delete index ts : removeTier index ts = delete index ts.
Proof. apply (removeTier_shifted 0 index ts). Qed.

Lemma tier_invariant_delete index ts :
  tier_invariant ts → tier_invariant (delete index ts).
Proof.
  intros Hinv i j ti tj c Hi Hj Hci Hcj.
  rewrite list_lookup_delete in Hi, Hj.
  repeat case_decide;
    pose proof (Hinv _ _ _ _ _ Hi Hj Hci Hcj); lia.
Qed.

Lemma ranked_delete index ts c : ranked c (delete index ts) → ranked c ts.
Proof.
  intros (t & Ht & Hc). exists t. split; [|done].
  apply list_elem_of_lookup in Ht as [i Hi]. rewrite list_lookup_delete in Hi.
  case_decide; by eapply list_elem_of_lookup_2.
Qed.
End TierEditor.

(** X4. Removing a tier in the editor deletes exactly the tier at that
    position (nothing at all for a position past the end); the list keeps
    every cookie in at most one tier, the cookies of the removed tier are
    then in no tier, and no cookie gains a placement. *)
Theorem removeTier_unranks_its_cookies (index : nat) (ts : list Tier) :
  tier_invariant ts →
  removeTier index ts = delete index ts
  ∧ ((length ts ≤ index)%nat → removeTier index ts = ts)
  ∧ tier_invariant (removeTier index ts)
  ∧ (∀ t c, ts !! index = Some t → c ∈ cookieIds t → ¬ ranked c (removeTier index ts))
  ∧ (∀ c, ranked c (removeTier index ts) → ranked c ts).
Proof.
  intros Hinv. rewrite removeTier_delete. split_and!.
  - done.
  - intros Hge. apply list_eq. intros i.
    rewrite list_lookup_delete. case_decide; [done|].
    by rewrite !(lookup_ge_None_2 ts) by lia.
  - by apply tier_invariant_delete.
  - intros t c Ht Hc (t' & Ht' & Hc').
    apply list_elem_of_lookup in Ht' as [i Hi]. rewrite list_lookup_delete in Hi.
    case_decide; pose proof (Hinv _ _ _ _ _ Hi Ht Hc' Hc); lia.
  - intros c. apply ranked_delete.
Qed.

Lemma removeTier_unranks_its_cookies_witness :
  let ts := [mkTier "S" "S" "bg-red-500" ["x"; "y"];
             mkTier "A" "A" "bg-orange-500" ["z"]] in
  removeTier 0 ts = [mkTier "A" "A" "bg-orange-500" ["z"]]
  ∧ ¬ ranked "x" (removeTier 0 ts).
Proof.
  intros ts.
  assert (tier_invariant ts) as Hinv.
  { apply tier_invariant_NoDup.
    apply (bool_decide_unpack (NoDup (ts ≫= cookieIds))). vm_compute. exact I. }
  destruct (removeTier_unranks_its_cookies 0 ts Hinv) as (Heq & _ & _ & Hun & _).
  split; [by rewrite Heq|].
  apply (Hun (mkTier "S" "S" "bg-red-500" ["x"; "y"]) "x"); [done|by left].
Defined.

(** X5. Adding a tier in the editor changes no placement: the list still
    keeps every cookie in at most one tier, a cookie is in some tier
    after exactly when it was before, and removing the tier just added
    (the last one) gives back the list. *)
Theorem addTier_keeps_placements (now : Z) (ts : list Tier) :
  tier_invariant ts →
  tier_invariant (addTier now ts)
  ∧ (∀ c, ranked c (addTier now ts) ↔ ranked c ts)
  ∧ removeTier (length ts) (addTier now ts) = ts.
Proof.
  intros Hinv. unfold addTier. split_and!.
  - intros i j ti tj c Hi Hj Hci Hcj.
    apply lookup_app_Some in Hi as [Hi|[_ Hi]], Hj as [Hj|[_ Hj]].
    + eauto.
    + apply list_lookup_singleton_Some in Hj as [_ <-]. by apply elem_of_nil in Hcj.
    + apply list_lookup_singleton_Some in Hi as [_ <-]. by apply elem_of_nil in Hci.
    + apply list_lookup_singleton_Some in Hi as [_ <-]. by apply elem_of_nil in Hci.
  - intros c. unfold ranked. split.
    + intros (t & Ht & Hc). apply elem_of_app in Ht as [Ht|Ht]; [by exists t|].
      apply list_elem_of_singleton in Ht as ->. by apply elem_of_nil in Hc.
    + intros (t & Ht & Hc). exists t. split; [|done]. apply elem_of_app. by left.
  - rewrite removeTier_delete, delete_take_drop, take_app_length.
    rewrite drop_ge by (rewrite length_app; simpl; lia). apply app_nil_r.
Qed.

Lemma addTier_keeps_placements_witness :
  tier_invariant (addTier 1700000000000 defaultTiers)
  ∧ removeTier 4 (addTier 1700000000000 defaultTiers) = defaultTiers.
Proof.
  destruct (addTier_keeps_placements 1700000000000 defaultTiers
              defaultTiers_invariant) as (Hinv & _ & Hundo).
  split; [exact Hinv|exact Hundo].
Defined.

(** ** The store: editing fields and loading delivered tiers *)

Section StoreReads.
Implicit Types (h : list Tier) (refs : list nat) (ts : list Tier).

Lemma read_fresh h ts added :
  mapM (λ r, (h ++ ts ++ added)%list !! r) (seq (length h) (length ts)) = Some ts.
Proof.
  apply mapM_Some_2, Forall2_same_length_lookup_2; [by rewrite length_seq|].
  intros i r t Hr Ht. apply lookup_seq in Hr as [-> Hi].
  rewrite lookup_app_r by lia.
  replace (length h + i - length h)%nat with i by lia.
  by rewrite lookup_app_l by lia.
Qed.

Lemma loadTierList_delivered h key data dflt i d ts :
  list_find (λ d, merged_id d = key) data = Some (i, d) →
  data_tiers (doc_data d) = TiersArray ts →
  loadTierList h key data dflt
  = ((h ++ ts)%list,
     mkTierListObj key (data_name (doc_data d)) (seq (length h) (length ts))).
Proof.
  intros Hfind Hts. unfold loadTierList. rewrite Hfind, Hts.
  apply list_find_Some in Hfind as (_ & -> & _). done.
Qed.

Lemma read_after_change h refs index f v ts r :
  NoDup refs →
  mapM (λ r, h !! r) refs = Some ts →
  refs !! index = Some r →
  mapM (λ r', alter (setField f v) r h !! r') refs
  = Some (alter (setField f v) index ts).
Proof.
  intros Hnd Hread Hr. apply mapM_Some_1 in Hread.
  apply mapM_Some_2, Forall2_same_length_lookup_2.
  { rewrite length_alter. by eapply Forall2_length. }
  intros i r' t' Hr' Ht'.
  destruct (Forall2_lookup_l _ _ _ _ _ Hread Hr') as (t & Ht & Hrt).
  rewrite list_lookup_alter in Ht'. rewrite list_lookup_alter.
  destruct (decide (index = i)) as [->|Hne].
  - rewrite Hr in Hr'. injection Hr' as <-. rewrite decide_True by done.
    rewrite Ht in Ht'. simpl in Ht'. injection Ht' as <-. by rewrite Hrt.
  - rewrite decide_False.
    + rewrite Ht in Ht'. by injection Ht' as <-.
    + intros ->. apply Hne. by eapply NoDup_lookup.
Qed.
End StoreReads.

(** X6. A rename or recolour in the tier editor, at a position inside
    the edited list, succeeds and changes that one field of that one
    tier: read back through the store, the edited list is the old one
    with the field replaced at the position, so every tier keeps its
    identifier and its cookies.  A position outside the list fails. *)
Theorem handleTierChange_changes_one_field
    (h : list Tier) (refs : list nat) (index : nat) (f : TierField) (v : string)
    (ts : list Tier) :
  NoDup refs →
  mapM (λ r, h !! r) refs = Some ts →
  ((index < length refs)%nat →
     ∃ h', handleTierChange h refs index f v = Some (h', refs)
           ∧ mapM (λ r, h' !! r) refs = Some (alter (setField f v) index ts)
           ∧ Forall2 (λ t t', tier_id t' = tier_id t ∧ cookieIds t' = cookieIds t)
                     ts (alter (setField f v) index ts))
  ∧ ((length refs ≤ index)%nat → handleTierChange h refs index f v = None).
Proof.
  intros Hnd Hread. split.
  - intros Hlt. destruct (lookup_lt_is_Some_2 refs index Hlt) as [r Hr].
    pose proof (mapM_Some_1 _ _ _ Hread) as Hall.
    destruct (Forall2_lookup_l _ _ _ _ _ Hall Hr) as (t & Ht & Hrt).
    exists (alter (setField f v) r h). split_and!.
    + unfold handleTierChange. rewrite Hr. simpl. by rewrite Hrt.
    + by apply read_after_change.
    + apply Forall2_alter_r; [by apply Forall_Forall2_diag, Forall_forall|].
      intros x y _ _ [Hid Hids]. by destruct f.
  - intros Hge. unfold handleTierChange. by rewrite lookup_ge_None_2.
Qed.

Lemma handleTierChange_changes_one_field_witness :
  handleTierChange storeAtLoad defaultTiersRef 1 FieldColor "bg-sky-500"
  = Some ([ mkTier "S" "S" "bg-red-500" [];
            mkTier "A" "A" "bg-sky-500" [];
            mkTier "B" "B" "bg-yellow-500" [];
            mkTier "C" "C" "bg-green-500" [] ], defaultTiersRef)
  ∧ handleTierChange storeAtLoad defaultTiersRef 4 FieldColor "bg-sky-500" = None.
Proof.
  assert (NoDup defaultTiersRef) as Hnd.
  { apply (bool_decide_unpack (NoDup defaultTiersRef)). vm_compute. exact I. }
  destruct (handleTierChange_changes_one_field storeAtLoad defaultTiersRef 4
              FieldColor "bg-sky-500" defaultTiers Hnd eq_refl) as [_ Hout].
  split; [reflexivity|]. apply Hout. simpl. lia.
Defined.

(** X7. A tier-list document delivered with an array of tiers is shown
    as delivered, whatever the store holds: for either list, the tiers
    read back after the snapshot are the tiers of the first document
    carrying that list's identifier, under that document's name. *)
Theorem onTierListsSnapshot_shows_delivered_tiers
    (h : list Tier) (data : list (Doc TierListData)) :
  let '(h', (pvpData, pveData)) := onTierListsSnapshot h data in
  (∀ i d ts,
     list_find (λ d, merged_id d = "pvp-tier-list") data = Some (i, d) →
     data_tiers (doc_data d) = TiersArray ts →
     readTiers h' pvpData = Some ts
     ∧ obj_id pvpData = "pvp-tier-list" ∧ obj_name pvpData = data_name (doc_data d))
  ∧ (∀ i d ts,
       list_find (λ d, merged_id d = "pve-tier-list") data = Some (i, d) →
       data_tiers (doc_data d) = TiersArray ts →
       readTiers h' pveData = Some ts
       ∧ obj_id pveData = "pve-tier-list" ∧ obj_name pveData = data_name (doc_data d)).
Proof.
  unfold onTierListsSnapshot.
  destruct (loadTierList h "pvp-tier-list" data defaultPvpObj) as [h1 pvpData] eqn:E1.
  destruct (loadTierList h1 "pve-tier-list" data defaultPveObj) as [h2 pveData] eqn:E2.
  destruct (loadTierList_extends h1 "pve-tier-list" data defaultPveObj) as [a2 Ha2].
  rewrite E2 in Ha2. simpl in Ha2. subst h2.
  split; intros i d ts Hfind Hts.
  - rewrite (loadTierList_delivered _ _ _ _ i d ts Hfind Hts) in E1.
    injection E1 as <- <-. split_and!; try done.
    unfold readTiers. simpl. rewrite <-app_assoc. apply read_fresh.
  - rewrite (loadTierList_delivered _ _ _ _ i d ts Hfind Hts) in E2.
    injection E2 as Hh <-. split_and!; try done.
    unfold readTiers. simpl. apply app_inv_head in Hh as <-.
    pose proof (read_fresh h1 ts []) as Hread. by rewrite app_nil_r in Hread.
Qed.

Lemma onTierListsSnapshot_shows_delivered_tiers_witness :
  let ts := [mkTier "S" "Top" "bg-red-500" ["x"]] in
  let d := mkDoc "pvp-tier-list" None (mkTierListData "PvP Tier List" (TiersArray ts)) in
  readTiers (onTierListsSnapshot storeAtLoad [d]).1 (onTierListsSnapshot storeAtLoad [d]).2.1
  = Some ts.
Proof.
  intros ts d.
  pose proof (onTierListsSnapshot_shows_delivered_tiers storeAtLoad [d]) as H.
  destruct (onTierListsSnapshot storeAtLoad [d]) as [h' [pvpData pveData]].
  destruct H as [Hpvp _]. simpl.
  by destruct (Hpvp 0%nat d ts eq_refl eq_refl) as [Hread _].
Defined.

(** ** The unranked pool and the lookup table after a move *)

Section PoolAndLookup.
Implicit Types (c : Cookie) (id target : string) (ts : list Tier) (l : TierList)
  (m : gmap string CookieTiers) (type : ListKind).
Context {host : HostStrings}.

Lemma elem_of_allRankedCookies id ts : id ∈ allRankedCookies ts ↔ ranked id ts.
Proof.
  unfold allRankedCookies, ranked. rewrite elem_of_list_to_set, list_elem_of_bind.
  split; intros (t & H1 & H2); by exists t.
Qed.

Lemma unrankedCookies_perm (cookies : list Cookie) ts s (rarities : list Attribute) :
  unrankedCookies cookies ts s rarities
  ≡ₚ filter (λ c, (cookie_id c ∉ allRankedCookies ts) ∧ matchesSearch s c) cookies.
Proof. unfold unrankedCookies. apply js_sort_perm. Qed.

Lemma dropTiers_ranked id target ts t :
  target ≠ "unranked" → t ∈ ts → tier_id t = target →
  ranked id (dropTiers id target ts).
Proof.
  intros Htarget Ht Hid. unfold dropTiers. rewrite bool_decide_true by done.
  destruct (list_find (λ t, tier_id t = target) (withoutCookie id <$> ts))
    as [[k tk]|] eqn:Hfind.
  - apply list_find_Some in Hfind as (Hk & _ & _).
    exists (pushCookie id tk). split.
    + apply list_elem_of_lookup. exists k. by rewrite list_lookup_alter_eq, Hk.
    + apply elem_of_pushCookie. by right.
  - apply list_find_None in Hfind. rewrite Forall_forall in Hfind.
    destruct (Hfind (withoutCookie id t)); [|done].
    apply list_elem_of_fmap. by exists t.
Qed.

Lemma dropTiers_unranked id ts : ¬ ranked id (dropTiers id "unranked" ts).
Proof.
  unfold dropTiers. rewrite bool_decide_false by (intros H; by apply H).
  apply not_ranked_without.
Qed.

Lemma ownLookup_congr type m1 m2 id ps :
  ownLookup m1 id type = ownLookup m2 id type →
  ownLookup (foldl (recordPlacement type) m1 ps) id type
  = ownLookup (foldl (recordPlacement type) m2 ps) id type.
Proof.
  revert m1 m2. induction ps as [|[n id'] ps IH]; intros m1 m2 Heq; [done|].
  simpl. apply IH. unfold recordPlacement. simpl.
  rewrite !ownLookup_recordEntry. by case_decide.
Qed.

Lemma ownLookup_not_ranked type m id l :
  ownLookup m id type = None → ¬ ranked id (tiers l) →
  ownLookup (ownEntries m l type) id type = None.
Proof.
  intros Hm Hnot. rewrite ownEntries_placements.
  destruct (ownLookup (foldl _ _ _) id type) as [n|] eqn:Hn; [|done].
  apply ownLookup_origin in Hn as [Hn|Hin]; [congruence|].
  apply elem_of_placements in Hin as (t & Ht & _ & Hid).
  destruct Hnot. by exists t.
Qed.

Lemma ownTable_pvp pvpList pveList id :
  ownLookup (ownTable pvpList pveList) id Pvp
  = ownLookup (ownEntries ∅ pvpList Pvp) id Pvp.
Proof.
  unfold ownTable.
  by rewrite (ownEntries_placements _ pveList), ownLookup_other_kind.
Qed.

Lemma ownTable_pve pvpList pveList id :
  ownLookup (ownTable pvpList pveList) id Pve
  = ownLookup (ownEntries ∅ pveList Pve) id Pve.
Proof.
  unfold ownTable. rewrite !(ownEntries_placements _ pveList).
  apply ownLookup_congr.
  rewrite ownEntries_placements, ownLookup_other_kind by done.
  by rewrite !ownLookup_empty.
Qed.

End PoolAndLookup.

(** X8. Whatever the engine's case folding is, the unranked pool of
    the tier-list view holds exactly the cookies that are in no tier of
    the active list and whose folded name contains the folded search
    string, each as often as the cookie list holds it. *)
Theorem unrankedCookies_is_complement {host : HostStrings}
    (cookies : list Cookie) (ts : list Tier) (s : string) (rarities : list Attribute) :
  (∀ c, c ∈ unrankedCookies cookies ts s rarities
        ↔ c ∈ cookies ∧ ¬ ranked (cookie_id c) ts
          ∧ contains_ignore_case (cookie_name c) s)
  ∧ unrankedCookies cookies ts s rarities
    ≡ₚ filter (λ c, (cookie_id c ∉ allRankedCookies ts) ∧ matchesSearch s c) cookies.
Proof.
  split; [|apply unrankedCookies_perm].
  intros c. rewrite unrankedCookies_perm, list_elem_of_filter.
  rewrite elem_of_allRankedCookies, matchesSearch_spec. tauto.
Qed.

(** X9. Dropping a listed cookie on the unranked pool puts it in the
    pool (with an empty search box); dropping it on an existing tier
    takes it out of the pool, whatever the search box holds. *)
Theorem unranked_pool_follows_moves {host : HostStrings}
    (cookies : list Cookie) (l : TierList) (c : Cookie) (rarities : list Attribute) :
  c ∈ cookies → cookie_id c ≠ "" →
  c ∈ unrankedCookies cookies (tiers (moveCookie l (cookie_id c) "unranked")) "" rarities
  ∧ (∀ target t s, target ≠ "unranked" → t ∈ tiers l → tier_id t = target →
       c ∉ unrankedCookies cookies (tiers (moveCookie l (cookie_id c) target)) s rarities).
Proof.
  intros Hc Hid. split.
  - rewrite unrankedCookies_perm, list_elem_of_filter.
    split_and!; [|apply matchesSearch_empty|done].
    rewrite elem_of_allRankedCookies, moveCookie_tiers, bool_decide_false by done.
    apply dropTiers_unranked.
  - intros target t s Htarget Ht Htid.
    rewrite unrankedCookies_perm, list_elem_of_filter.
    rewrite elem_of_allRankedCookies, moveCookie_tiers, bool_decide_false by done.
    intros [[Hnot _] _]. apply Hnot. by eapply dropTiers_ranked.
Qed.

Lemma unranked_pool_follows_moves_witness :
  let c := mkCookie "x" (mkCookieData "GingerBrave" "" "" "" "Common" "" "" "" "" ""
                           [] [] NoTimestamp None) in
  let l := mkTierList "pvp-tier-list" "PvP Tier List"
             [mkTier "S" "S" "bg-red-500" ["x"]] in
  c ∈ @unrankedCookies asciiHost [c] (tiers (moveCookie l "x" "unranked")) "" []
  ∧ c ∉ @unrankedCookies asciiHost [c] (tiers (moveCookie l "x" "S")) "" [].
Proof.
  intros c l.
  assert (c ∈ [c]) as Hc by by left.
  assert (cookie_id c ≠ "") as Hid by done.
  destruct (@unranked_pool_follows_moves asciiHost [c] l c [] Hc Hid) as [Hin Hout].
  split; [exact Hin|].
  apply (Hout "S" (mkTier "S" "S" "bg-red-500" ["x"]) ""); [done|by left|done].
Defined.

Lemma moveCookie_ranked_subset (l : TierList) (c target d : string) :
  ranked d (tiers (moveCookie l c target)) → d = c ∨ ranked d (tiers l).
Proof.
  rewrite moveCookie_tiers. case_bool_decide; [by right|].
  intros (t' & Ht' & Hd).
  assert (∀ t0, t0 ∈ withoutCookie c <$> tiers l → d ∈ cookieIds t0 → ranked d (tiers l))
    as Hw.
  { intros t0 (t1 & -> & Ht1)%list_elem_of_fmap [Hd1 _]%elem_of_withoutCookie.
    by exists t1. }
  destruct (dropTiers_shape c target (tiers l)) as [Heq|[k Heq]]; rewrite Heq in Ht'.
  - right. by eapply Hw.
  - apply list_elem_of_lookup in Ht' as [i Hi].
    destruct (decide (i = k)) as [->|Hik].
    + rewrite list_lookup_alter_eq in Hi.
      destruct ((withoutCookie c <$> tiers l) !! k) as [t0|] eqn:Hk; [|done].
      simpl in Hi. injection Hi as <-.
      apply elem_of_pushCookie in Hd as [Hd | ->]; [right|by left].
      eapply Hw; [|done]. by eapply list_elem_of_lookup_2.
    + rewrite list_lookup_alter_ne in Hi by done. right.
      eapply Hw; [|done]. by eapply list_elem_of_lookup_2.
Qed.

Lemma moveCookie_plainIds (l : TierList) (c target : string) :
  plainIds l → ¬ inherited c → plainIds (moveCookie l c target).
Proof.
  intros Hl Hc t id Ht Hid.
  destruct (moveCookie_ranked_subset l c target id) as [->|(t0 & Ht0 & Hid0)];
    [by exists t|done|by apply (Hl t0)].
Qed.

(** The table of own properties after a move. *)
Lemma ownTable_follows_moves
    (pvpList pveList : TierList) (c target : string) (k : nat) (t : Tier) :
  tier_invariant (tiers pvpList) →
  c ≠ "" → target ≠ "unranked" →
  tiers pvpList !! k = Some t → tier_id t = target →
  (∀ j tj, tiers pvpList !! j = Some tj → (j < k)%nat → tier_id tj ≠ target) →
  ownLookup (ownTable (moveCookie pvpList c target) pveList) c Pvp
    = Some (tier_name t)
  ∧ ownLookup (ownTable (moveCookie pvpList c "unranked") pveList) c Pvp = None
  ∧ ownLookup (ownTable (moveCookie pvpList c target) pveList) c Pve
    = ownLookup (ownTable pvpList pveList) c Pve.
Proof.
  intros Hinv Hc Htarget Hk Hid Hfirst. split_and!.
  - rewrite ownTable_pvp.
    destruct (ownEntries_consistent ∅ (moveCookie pvpList c target) Pvp c
                (ownLookup_empty c Pvp) (moveCookie_invariant _ _ _ Hinv))
      as [_ Hname].
    assert (tiers (moveCookie pvpList c target) !! k
            = Some (pushCookie c (withoutCookie c t))) as Hk'.
    { rewrite moveCookie_tiers, bool_decide_false by done.
      rewrite (dropTiers_found c target (tiers pvpList) k t) by done.
      by rewrite list_lookup_alter_eq, list_lookup_fmap, Hk. }
    rewrite (Hname (pushCookie c (withoutCookie c t))); [done| |].
    + by eapply list_elem_of_lookup_2.
    + apply elem_of_pushCookie. by right.
  - rewrite ownTable_pvp. apply ownLookup_not_ranked; [apply ownLookup_empty|].
    rewrite moveCookie_tiers, bool_decide_false by done. apply dropTiers_unranked.
  - by rewrite !ownTable_pve.
Qed.

(** X10. On a page where nothing was assigned to the inherited
    properties, with lists that hold no identifier naming an inherited
    property and a cookie whose identifier names none: after a move in
    the PvP list (each cookie in at most one tier before), the lookup
    table is built without error and reports for the moved cookie the
    name of the tier it was dropped on, or no PvP tier after a drop on
    the unranked pool; its PvE entry is the one it had. *)
Theorem lookup_follows_moves
    (pvpList pveList : TierList) (c target : string) (k : nat) (t : Tier) :
  tier_invariant (tiers pvpList) →
  plainIds pvpList → plainIds pveList → ¬ inherited c →
  c ≠ "" → target ≠ "unranked" →
  tiers pvpList !! k = Some t → tier_id t = target →
  (∀ j tj, tiers pvpList !! j = Some tj → (j < k)%nat → tier_id tj ≠ target) →
  ∃ before moved pooled,
    cookieTiersMap freshEnv pvpList pveList = Some (freshEnv, before)
    ∧ cookieTiersMap freshEnv (moveCookie pvpList c target) pveList
      = Some (freshEnv, moved)
    ∧ cookieTiersMap freshEnv (moveCookie pvpList c "unranked") pveList
      = Some (freshEnv, pooled)
    ∧ lookupTier freshEnv moved c Pvp = Some (tier_name t)
    ∧ lookupTier freshEnv pooled c Pvp = None
    ∧ lookupTier freshEnv moved c Pve = lookupTier freshEnv before c Pve.
Proof.
  intros Hinv Hpvp Hpve Hplain Hc Htarget Hk Hid Hfirst.
  exists (ownTable pvpList pveList), (ownTable (moveCookie pvpList c target) pveList),
         (ownTable (moveCookie pvpList c "unranked") pveList).
  rewrite !cookieTiersMap_plain by (try apply moveCookie_plainIds; done).
  rewrite !lookupTier_fresh.
  destruct (ownTable_follows_moves pvpList pveList c target k t) as (H1 & H2 & H3);
    try done.
Qed.

Lemma lookup_follows_moves_witness :
  let pvpList := mkTierList "pvp-tier-list" "PvP Tier List"
                   [mkTier "S" "Super" "bg-red-500" ["x"];
                    mkTier "A" "Average" "bg-orange-500" []] in
  ∃ moved pooled,
    cookieTiersMap freshEnv (moveCookie pvpList "x" "A") defaultPveTierList
    = Some (freshEnv, moved)
    ∧ cookieTiersMap freshEnv (moveCookie pvpList "x" "unranked") defaultPveTierList
      = Some (freshEnv, pooled)
    ∧ lookupTier freshEnv moved "x" Pvp = Some "Average"
    ∧ lookupTier freshEnv pooled "x" Pvp = None.
Proof.
  intros pvpList.
  assert (tier_invariant (tiers pvpList)) as Hinv.
  { apply tier_invariant_NoDup.
    apply (bool_decide_unpack (NoDup (tiers pvpList ≫= cookieIds))). vm_compute. exact I. }
  assert (∀ j tj, tiers pvpList !! j = Some tj → (j < 1)%nat → tier_id tj ≠ "A") as Hfirst.
  { intros [|j] tj Hj Hlt; [|lia]. by injection Hj as <-. }
  assert (¬ inherited "x") as Hx.
  { intros [Hx|Hx]; [discriminate|].
    by apply (bool_decide_pack ("x" ∈ builtinMethods)) in Hx. }
  assert (plainIds pvpList) as Hpvp.
  { intros t id Ht Hid.
    assert (id = "x") as ->; [|done].
    repeat (apply elem_of_cons in Ht as [->|Ht]);
      [by apply list_elem_of_singleton in Hid|by apply elem_of_nil in Hid|
       by apply elem_of_nil in Ht]. }
  assert (plainIds defaultPveTierList) as Hpve.
  { intros t id Ht Hid.
    repeat (apply elem_of_cons in Ht as [->|Ht]; [by apply elem_of_nil in Hid|]).
    by apply elem_of_nil in Ht. }
  destruct (lookup_follows_moves pvpList defaultPveTierList "x" "A" 1
              (mkTier "A" "Average" "bg-orange-500" []) Hinv Hpvp Hpve Hx)
    as (before & moved & pooled & _ & Hm & Hp & H1 & H2 & _); try done.
  by exists moved, pooled.
Defined.

(** X11. Without the invariant the table reports the last placement,
    for every identifier and in every state of the inherited properties:
    when the evaluation completes, for a cookie held by several tiers of
    the PvP list the pvp entry read from the table is the name of the
    last tier of the list that holds it. *)
Theorem lookup_reports_last_tier
    (env env' : ProtoEnv) (map : gmap string CookieTiers)
    (pvpList pveList : TierList) (id : string) (pre post : list Tier) (t : Tier) :
  tiers pvpList = (pre ++ t :: post)%list →
  id ∈ cookieIds t →
  Forall (λ t', id ∉ cookieIds t') post →
  cookieTiersMap env pvpList pveList = Some (env', map) →
  lookupTier env' map id Pvp = Some (tier_name t).
Proof.
  intros Hts Hid Hpost. unfold cookieTiersMap.
  destruct (processTierList (env, ∅) pvpList Pvp) as [st1|] eqn:Hpvp; [|done].
  simpl. intros Hpve.
  rewrite processTierList_steps in Hpvp, Hpve. rewrite Hts in Hpvp.
  unfold placements in Hpvp. rewrite bind_app, foldl_app in Hpvp.
  destruct (foldl_recordStep_Some _ _ _ _ Hpvp) as [st0 Hst0]. rewrite Hst0 in Hpvp.
  apply (held_lookup (env', map)).
  apply (held_kept Pvp Pve st1 _ id _ _ Hpve); [|done].
  apply (held_last Pvp st0 st1 id _ _ Hpvp).
  - apply (elem_of_placements _ _ (t :: post)). exists t. split; [by left|done].
  - intros n' Hin. apply (elem_of_placements _ _ (t :: post)) in Hin
      as (t' & Ht' & -> & Hid').
    apply elem_of_cons in Ht' as [->|Ht']; [done|].
    rewrite Forall_forall in Hpost. by destruct (Hpost t' Ht').
Qed.

Lemma lookup_reports_last_tier_witness :
  let pvpList := mkTierList "pvp-tier-list" "PvP Tier List"
                   [mkTier "S" "S" "bg-red-500" ["x"; "constructor"];
                    mkTier "A" "A" "bg-orange-500" ["x"; "constructor"];
                    mkTier "B" "B" "bg-yellow-500" ["y"]] in
  ∃ env' map,
    cookieTiersMap freshEnv pvpList defaultPveTierList = Some (env', map)
    ∧ lookupTier env' map "x" Pvp = Some "A"
    ∧ lookupTier env' map "constructor" Pvp = Some "A".
Proof.
  intros pvpList.
  assert (∃ env' map, cookieTiersMap freshEnv pvpList defaultPveTierList = Some (env', map))
    as (env' & map & Hrun) by (eexists _, _; vm_compute; reflexivity).
  assert (Forall (λ t', "x" ∉ cookieIds t') [mkTier "B" "B" "bg-yellow-500" ["y"]]) as Hx.
  { repeat constructor. intros Hin. apply list_elem_of_singleton in Hin. discriminate. }
  assert (Forall (λ t', "constructor" ∉ cookieIds t') [mkTier "B" "B" "bg-yellow-500" ["y"]])
    as Hc.
  { repeat constructor. intros Hin. apply list_elem_of_singleton in Hin. discriminate. }
  exists env', map. split_and!; [exact Hrun|..].
  - apply (lookup_reports_last_tier freshEnv env' map pvpList defaultPveTierList "x"
             [mkTier "S" "S" "bg-red-500" ["x"; "constructor"]]
             [mkTier "B" "B" "bg-yellow-500" ["y"]]
             (mkTier "A" "A" "bg-orange-500" ["x"; "constructor"]) eq_refl);
      [by left|exact Hx|exact Hrun].
  - apply (lookup_reports_last_tier freshEnv env' map pvpList defaultPveTierList
             "constructor"
             [mkTier "S" "S" "bg-red-500" ["x"; "constructor"]]
             [mkTier "B" "B" "bg-yellow-500" ["y"]]
             (mkTier "A" "A" "bg-orange-500" ["x"; "constructor"]) eq_refl);
      [by right; left|exact Hc|exact Hrun].
Defined.

(** The lists once the writes of a cookie deletion are applied. *)
Lemma applyWrites_handleDelete_cookie
    (pvpList pveList : TierList) (cookies : list Cookie) (id : string) :
  list_id pvpList = "pvp-tier-list" →
  list_id pveList = "pve-tier-list" →
  let ws := handleDelete true pvpList pveList cookies "cookies" id in
  applyWrites pvpList ws = applyWrites pvpList (purgeTierList id pvpList)
  ∧ applyWrites pveList ws = applyWrites pveList (purgeTierList id pveList).
Proof.
  intros Hpvp Hpve ws.
  assert (ws = (purgeTierList id pvpList ++ purgeTierList id pveList
                ++ [DeleteDoc "cookies" id])%list) as ->.
  { unfold ws, handleDelete. simpl. by rewrite <-app_assoc. }
  assert (list_id pveList ≠ list_id pvpList) as Hne by (by rewrite Hpvp, Hpve).
  split.
  - rewrite !applyWrites_app. unfold applyWrites at 1. cbn [foldl applyWrite].
    apply (applyWrites_purge_other id _ pveList).
    destruct (ranked_or_not id pvpList) as [Hr|Hr].
    + rewrite purgeTierList_ranked by (by rewrite ?Hpvp).
      unfold applyWrites. cbn [foldl]. by rewrite applyWrite_same.
    + by rewrite purgeTierList_not_ranked.
  - rewrite !applyWrites_app. unfold applyWrites at 1. cbn [foldl applyWrite].
    by rewrite (applyWrites_purge_other id _ pvpList) by done.
Qed.

(** X12. On a page where nothing was assigned to the inherited
    properties, with lists that hold no identifier naming an inherited
    property: once the writes of a cookie deletion are applied, the
    lookup table is built from the two lists without error and has no
    entry of either kind for the deleted cookie. *)
Theorem deleted_cookie_leaves_lookup
    (pvpList pveList : TierList) (cookies : list Cookie) (id : string) :
  list_id pvpList = "pvp-tier-list" →
  list_id pveList = "pve-tier-list" →
  plainIds pvpList → plainIds pveList →
  let ws := handleDelete true pvpList pveList cookies "cookies" id in
  ∃ map,
    cookieTiersMap freshEnv (applyWrites pvpList ws) (applyWrites pveList ws)
    = Some (freshEnv, map)
    ∧ lookupTier freshEnv map id Pvp = None
    ∧ lookupTier freshEnv map id Pve = None.
Proof.
  intros Hpvp Hpve Hplain Hplain' ws.
  destruct (applyWrites_handleDelete_cookie pvpList pveList cookies id Hpvp Hpve)
    as [Ep Ee].
  fold ws in Ep, Ee. rewrite Ep, Ee.
  assert (list_id pvpList ≠ "") as Hid by (by rewrite Hpvp).
  assert (list_id pveList ≠ "") as Hid' by (by rewrite Hpve).
  exists (ownTable (applyWrites pvpList (purgeTierList id pvpList))
                   (applyWrites pveList (purgeTierList id pveList))).
  split_and!.
  - apply cookieTiersMap_plain; [| |done].
    + apply (plainIds_subset pvpList); [|done].
      intros d. by apply applyWrites_purge_self_subset.
    + apply (plainIds_subset pveList); [|done].
      intros d. by apply applyWrites_purge_self_subset.
  - rewrite lookupTier_fresh, ownTable_pvp.
    apply ownLookup_not_ranked; [apply ownLookup_empty|].
    by apply applyWrites_purge_self.
  - rewrite lookupTier_fresh, ownTable_pve.
    apply ownLookup_not_ranked; [apply ownLookup_empty|].
    by apply applyWrites_purge_self.
Qed.

Lemma deleted_cookie_leaves_lookup_witness :
  let pvpList := mkTierList "pvp-tier-list" "PvP Tier List"
                   [mkTier "S" "S" "bg-red-500" ["x"; "y"]] in
  let ws := handleDelete true pvpList defaultPveTierList [] "cookies" "x" in
  (∃ before, cookieTiersMap freshEnv pvpList defaultPveTierList = Some (freshEnv, before)
             ∧ lookupTier freshEnv before "x" Pvp = Some "S")
  ∧ ∃ map, cookieTiersMap freshEnv (applyWrites pvpList ws)
             (applyWrites defaultPveTierList ws) = Some (freshEnv, map)
           ∧ lookupTier freshEnv map "x" Pvp = None.
Proof.
  intros pvpList ws. split; [eexists; split; vm_compute; reflexivity|].
  assert (plainIds pvpList) as Hpvp.
  { intros t id Ht Hid. apply list_elem_of_singleton in Ht as ->.
    intros [Hin|Hin].
    - repeat (apply elem_of_cons in Hid as [->|Hid]; [discriminate|]).
      by apply elem_of_nil in Hid.
    - repeat (apply elem_of_cons in Hid as [->|Hid];
                [by apply (bool_decide_pack (_ ∈ builtinMethods)) in Hin|]).
      by apply elem_of_nil in Hid. }
  assert (plainIds defaultPveTierList) as Hpve.
  { intros t id Ht Hid.
    repeat (apply elem_of_cons in Ht as [->|Ht]; [by apply elem_of_nil in Hid|]).
    by apply elem_of_nil in Ht. }
  destruct (deleted_cookie_leaves_lookup pvpList defaultPveTierList [] "x"
              eq_refl eq_refl Hpvp Hpve) as (map & Hmap & Hnone & _).
  by exists map.
Defined.

(** ** Sorting: order, stability, direction *)

Section JsSortMore.
Context {A : Type} (cmp : A → A → JsNumber).
Implicit Types (x y : A) (l : list A).

Lemma sortInsert_front x l :
  Forall (notAfter cmp x) l → sortInsert cmp x l = x :: l.
Proof.
  destruct l as [|y l]; [done|]. intros Hall.
  apply Forall_cons in Hall as [Hxy _]. simpl. unfold notAfter in Hxy. by rewrite Hxy.
Qed.

(** A list already in order is left as it is. *)
Lemma js_sort_fixed l : StronglySorted (notAfter cmp) l → js_sort cmp l = l.
Proof.
  induction 1 as [|x l Hl IH Hx]; [done|].
  unfold js_sort in *. simpl. rewrite IH. by apply sortInsert_front.
Qed.

(** Elements that the comparator does not tell apart keep the order in
    which they came. *)
Lemma sortInsert_stable (P : A → Prop) `{!∀ x, Decision (P x)} x l :
  (∀ y, P x → P y → notAfter cmp x y) →
  filter P (sortInsert cmp x l) = filter P (x :: l).
Proof.
  intros Htie. induction l as [|y l IH]; [done|]. simpl.
  destruct (js_positive (cmp x y)) eqn:Hxy; [|done].
  rewrite (filter_cons _ y), IH, !(filter_cons _ x), (filter_cons _ y).
  destruct (decide (P x)) as [Hx|Hx], (decide (P y)) as [Hy|Hy]; try done.
  specialize (Htie y Hx Hy). unfold notAfter in Htie. congruence.
Qed.

Lemma js_sort_stable (P : A → Prop) `{!∀ x, Decision (P x)} l :
  (∀ x y, P x → P y → notAfter cmp x y) →
  filter P (js_sort cmp l) = filter P l.
Proof.
  intros Htie. induction l as [|x l IH]; [done|].
  unfold js_sort in *. simpl. rewrite sortInsert_stable by (intros y; apply Htie).
  by rewrite !(filter_cons _ x), IH.
Qed.
End JsSortMore.

Lemma StronglySorted_reverse {A} (R : relation A) (l : list A) :
  StronglySorted R l → StronglySorted (flip R) (reverse l).
Proof.
  induction 1 as [|x l Hl IH Hx]; [constructor|].
  rewrite reverse_cons. apply StronglySorted_app. split_and!.
  - intros y z Hy Hz. apply list_elem_of_singleton in Hz as ->.
    rewrite elem_of_reverse in Hy. rewrite Forall_forall in Hx.
    unfold flip. by apply Hx.
  - done.
  - repeat constructor.
Qed.

Lemma StronglySorted_weaken {A} (R R' : relation A) (l : list A) :
  (∀ x y, R x y → R' x y) → StronglySorted R l → StronglySorted R' l.
Proof.
  intros Himpl. induction 1 as [|x l Hl IH Hx]; constructor; [done|].
  eapply Forall_impl; [exact Hx|]. by intros y; apply Himpl.
Qed.

Section RarityOrder.
Variable localeCompare : string → string → JsNumber.
Variable rarities : list Attribute.
Implicit Types (a b c : Cookie).

Lemma compare_rarity_desc a b za zb :
  rarityRank (attr_name <$> rarities) (cookie_rarity a) = Fin za →
  rarityRank (attr_name <$> rarities) (cookie_rarity b) = Fin zb →
  notAfter (compareCookies localeCompare (mkSort SortRarity Desc) rarities) a b
  ↔ (zb < za ∨ (za = zb ∧ timeOf b ≤ timeOf a))%Z.
Proof.
  intros Ha Hb. unfold notAfter, compareCookies.
  cbn [sort_option direction]. rewrite Ha, Hb. cbn [js_sub].
  destruct (decide (za - zb = 0)%Z) as [Hz|Hz].
  - rewrite Hz. cbn [js_is_zero js_neg js_positive]. rewrite bool_decide_eq_false. lia.
  - assert (js_is_zero (Fin (za - zb)) = false) as ->.
    { unfold js_is_zero. by destruct (za - zb)%Z. }
    cbn [js_neg js_positive]. rewrite bool_decide_eq_false. lia.
Qed.

Lemma compare_rarity_desc_flip a b :
  notAfter (compareCookies localeCompare (mkSort SortRarity Desc) rarities) a b
  ↔ notAfter (compareCookies localeCompare (mkSort SortRarity Asc) rarities) b a.
Proof.
  destruct (rank_of rarities a) as (za & Ha & _), (rank_of rarities b) as (zb & Hb & _).
  rewrite (compare_rarity_desc a b za zb),
          (compare_rarity_asc localeCompare rarities b a zb za) by done.
  lia.
Qed.

Lemma compare_rarity_total d a b :
  ¬ notAfter (compareCookies localeCompare (mkSort SortRarity d) rarities) a b →
  notAfter (compareCookies localeCompare (mkSort SortRarity d) rarities) b a.
Proof.
  destruct d; [apply compare_rarity_asc_total|].
  rewrite !compare_rarity_desc_flip. apply compare_rarity_asc_total.
Qed.

Lemma compare_rarity_trans d a b c :
  notAfter (compareCookies localeCompare (mkSort SortRarity d) rarities) a b →
  notAfter (compareCookies localeCompare (mkSort SortRarity d) rarities) b c →
  notAfter (compareCookies localeCompare (mkSort SortRarity d) rarities) a c.
Proof.
  destruct d; [apply compare_rarity_asc_trans|].
  rewrite !compare_rarity_desc_flip. intros Hba Hcb.
  by apply (compare_rarity_asc_trans localeCompare rarities c b a).
Qed.

Lemma sortedCookies_rarity_sorted d (filtered : list Cookie) :
  StronglySorted (notAfter (compareCookies localeCompare (mkSort SortRarity d) rarities))
    (sortedCookies localeCompare (mkSort SortRarity d) rarities filtered).
Proof.
  apply js_sort_sorted; [apply compare_rarity_total|apply compare_rarity_trans].
Qed.
End RarityOrder.

Lemma sortedCookies_perm
    (localeCompare : string → string → JsNumber) (sort : Sort)
    (rarities : list Attribute) (filtered : list Cookie) :
  sortedCookies localeCompare sort rarities filtered ≡ₚ filtered.
Proof. apply js_sort_perm. Qed.

(** X13. Sorting loses and duplicates nothing: for every sort option and
    direction, and whatever the locale comparison returns, the sorted
    list is a rearrangement of the filtered list. *)
Theorem sortedCookies_rearranges
    (localeCompare : string → string → JsNumber) (sort : Sort)
    (rarities : list Attribute) (filtered : list Cookie) :
  sortedCookies localeCompare sort rarities filtered ≡ₚ filtered.
Proof. apply js_sort_perm. Qed.

(** X14. Under rarity / ascending a cookie stands before every cookie
    whose rarity has a greater [indexOf] in the registry names (-1 for a
    rarity the registry lacks), and among cookies of equal rank before
    every cookie with a later creation time. *)
Theorem sortedCookies_rank_then_time
    (localeCompare : string → string → JsNumber) (rarities : list Attribute)
    (filtered : list Cookie) (i j : nat) (a b : Cookie) (za zb : Z) :
  sortedCookies localeCompare (mkSort SortRarity Asc) rarities filtered !! i = Some a →
  sortedCookies localeCompare (mkSort SortRarity Asc) rarities filtered !! j = Some b →
  indexOf (attr_name <$> rarities) (cookie_rarity a) = Fin za →
  indexOf (attr_name <$> rarities) (cookie_rarity b) = Fin zb →
  (za < zb ∨ (za = zb ∧ timeOf a < timeOf b))%Z →
  (i < j)%nat.
Proof.
  intros Hi Hj Ha Hb Hkey.
  destruct (decide (i < j)%nat) as [|Hnlt]; [done|exfalso].
  assert (i ≠ j) as Hne.
  { intros ->. rewrite Hi in Hj. injection Hj as ->. rewrite Ha in Hb.
    injection Hb as ->. lia. }
  assert (notAfter (compareCookies localeCompare (mkSort SortRarity Asc) rarities) b a)
    as Hba.
  { eapply (StronglySorted_lookup_lt _ _ j i); [|exact Hj|exact Hi|lia].
    apply sortedCookies_rarity_sorted. }
  rewrite (compare_rarity_asc localeCompare rarities b a zb za) in Hba by done. lia.
Qed.

Lemma sortedCookies_rank_then_time_witness :
  let rarities := [ mkAttribute "r1" "Common" None false;
                    mkAttribute "r2" "Epic" None true ] in
  let cookie id r t :=
    mkCookie id (mkCookieData id "" "" "" r "" "" "" "" "" [] [] (StoreTimestamp t) None) in
  let l := [cookie "a" "Epic" 5%Z; cookie "b" "Common" 9%Z; cookie "c" "Common" 2%Z] in
  sortedCookies (λ _ _, NaN) (mkSort SortRarity Asc) rarities l
  = [cookie "c" "Common" 2%Z; cookie "b" "Common" 9%Z; cookie "a" "Epic" 5%Z]
  ∧ (0 < 1)%nat.
Proof.
  intros rarities cookie l. split; [reflexivity|].
  apply (sortedCookies_rank_then_time (λ _ _, NaN) rarities l 0%nat 1%nat
           (cookie "c" "Common" 2%Z) (cookie "b" "Common" 9%Z) 0%Z 0%Z);
    try reflexivity.
  right. split; reflexivity.
Defined.

(** X15. Sorting by rarity, in either direction, a list that is already
    so sorted returns it: sorting twice is sorting once. *)
Theorem sortedCookies_rarity_idempotent
    (localeCompare : string → string → JsNumber) (d : SortDirection)
    (rarities : list Attribute) (filtered : list Cookie) :
  sortedCookies localeCompare (mkSort SortRarity d) rarities
    (sortedCookies localeCompare (mkSort SortRarity d) rarities filtered)
  = sortedCookies localeCompare (mkSort SortRarity d) rarities filtered.
Proof. apply js_sort_fixed, sortedCookies_rarity_sorted. Qed.

(** X16. When no two different cookies of the list have both the same
    rank and the same creation time, sorting by rarity descending gives
    the reverse of sorting by rarity ascending. *)
Theorem sortedCookies_desc_reverses
    (localeCompare : string → string → JsNumber)
    (rarities : list Attribute) (filtered : list Cookie) :
  (∀ a b, a ∈ filtered → b ∈ filtered →
          indexOf (attr_name <$> rarities) (cookie_rarity a)
          = indexOf (attr_name <$> rarities) (cookie_rarity b) →
          timeOf a = timeOf b → a = b) →
  sortedCookies localeCompare (mkSort SortRarity Desc) rarities filtered
  = reverse (sortedCookies localeCompare (mkSort SortRarity Asc) rarities filtered).
Proof.
  intros Hties.
  apply (StronglySorted_unique_strong
           (notAfter (compareCookies localeCompare (mkSort SortRarity Desc) rarities))).
  - intros a b Ha Hb Hab Hba.
    rewrite sortedCookies_perm in Ha.
    rewrite elem_of_reverse, sortedCookies_perm in Hb.
    destruct (rank_of rarities a) as (za & Hza & _), (rank_of rarities b) as (zb & Hzb & _).
    rewrite (compare_rarity_desc localeCompare rarities a b za zb) in Hab by done.
    rewrite (compare_rarity_desc localeCompare rarities b a zb za) in Hba by done.
    rewrite rarityRank_indexOf in Hza, Hzb.
    apply Hties; [done|done| |lia]. rewrite Hza, Hzb. f_equal. lia.
  - apply sortedCookies_rarity_sorted.
  - eapply StronglySorted_weaken;
      [|apply StronglySorted_reverse,
          (sortedCookies_rarity_sorted localeCompare rarities Asc)].
    intros a b Hflip. by apply compare_rarity_desc_flip.
  - by rewrite reverse_Permutation, !sortedCookies_perm.
Qed.

Lemma sortedCookies_desc_reverses_witness :
  let rarities := [ mkAttribute "r1" "Common" None false;
                    mkAttribute "r2" "Epic" None true ] in
  let cookie id r t :=
    mkCookie id (mkCookieData id "" "" "" r "" "" "" "" "" [] [] (StoreTimestamp t) None) in
  let l := [cookie "a" "Epic" 5%Z; cookie "b" "Common" 9%Z; cookie "c" "Common" 2%Z] in
  sortedCookies (λ _ _, NaN) (mkSort SortRarity Desc) rarities l
  = reverse (sortedCookies (λ _ _, NaN) (mkSort SortRarity Asc) rarities l).
Proof.
  intros rarities cookie l.
  apply (sortedCookies_desc_reverses (λ _ _, NaN) rarities l).
  intros a b Ha Hb.
  unfold l in Ha, Hb.
  repeat (apply elem_of_cons in Ha as [->|Ha]);
    repeat (apply elem_of_cons in Hb as [->|Hb]);
    try (by apply elem_of_nil in Ha); try (by apply elem_of_nil in Hb);
    try done; vm_compute; intros; discriminate.
Defined.

(** X17. The sort is stable: in either direction of the rarity sort,
    cookies with the same rarity name and the same creation time keep
    the relative order they had in the filtered list. *)
Theorem sortedCookies_rarity_stable
    (localeCompare : string → string → JsNumber) (d : SortDirection)
    (rarities : list Attribute) (filtered : list Cookie) (r : string) (t : Z) :
  filter (λ c, cookie_rarity c = r ∧ timeOf c = t)
         (sortedCookies localeCompare (mkSort SortRarity d) rarities filtered)
  = filter (λ c, cookie_rarity c = r ∧ timeOf c = t) filtered.
Proof.
  apply js_sort_stable. intros a b [Ha Hta] [Hb Htb].
  destruct (rank_of rarities a) as (za & Hza & _).
  assert (rarityRank (attr_name <$> rarities) (cookie_rarity b) = Fin za) as Hzb
    by (by rewrite Hb, <-Ha).
  destruct d.
  - rewrite (compare_rarity_asc localeCompare rarities a b za za) by done. lia.
  - rewrite (compare_rarity_desc localeCompare rarities a b za za) by done. lia.
Qed.

(** ** Grouping by rarity *)

Lemma groupedCookies_fold (r : string) (l : list Cookie) (m : gmap string (list Cookie)) :
  foldl (λ acc cookie,
           <[groupKey cookie := (default [] (acc !! groupKey cookie) ++ [cookie])%list]> acc)
        m l !! r
  = match filter (λ c, groupKey c = r) l with
    | [] => m !! r
    | g => Some (default [] (m !! r) ++ g)%list
    end.
Proof.
  revert m. induction l as [|c l IH]; intros m; [done|].
  simpl. rewrite IH, filter_cons. destruct (decide (groupKey c = r)) as [<-|Hne].
  - rewrite lookup_insert_eq. simpl.
    destruct (filter _ l) as [|c' g]; [done|]. by rewrite <-app_assoc.
  - by rewrite lookup_insert_ne.
Qed.

Lemma foldl_groupStep_None (env : ProtoEnv) (l : list Cookie) :
  foldl (groupStep env) None l = None.
Proof. induction l as [|c l IH]; [done|]. simpl. exact IH. Qed.

Lemma not_shadowed_Common (env : ProtoEnv) : ¬ shadowed env "Common".
Proof.
  unfold shadowed, inherited, inheritedString.
  rewrite !bool_decide_false by done. intros [[H|H]|H]; [done| |done].
  by apply (bool_decide_pack ("Common" ∈ builtinMethods)) in H.
Qed.

Lemma not_shadowed_empty (env : ProtoEnv) : ¬ shadowed env "".
Proof.
  unfold shadowed, inherited, inheritedString.
  rewrite !bool_decide_false by done. intros [[H|H]|H]; [done| |done].
  by apply (bool_decide_pack ("" ∈ builtinMethods)) in H.
Qed.

Lemma shadowed_rarity (env : ProtoEnv) (c : Cookie) :
  shadowed env (groupKey c) ↔ shadowed env (cookie_rarity c).
Proof.
  unfold groupKey. case_bool_decide as Hr; [|done]. rewrite Hr.
  split; intros H; [by apply not_shadowed_Common in H|by apply not_shadowed_empty in H].
Qed.

Lemma groupKey_spec (c : Cookie) (r : string) :
  groupKey c = r
  ↔ (cookie_rarity c = r ∧ r ≠ "") ∨ (cookie_rarity c = "" ∧ r = "Common").
Proof.
  unfold groupKey. case_bool_decide as Hr.
  - split; [intros <-; by right|]. intros [[<- Hne]|[_ ->]]; done.
  - split; [intros <-; by left|]. intros [[<- _]|[? _]]; done.
Qed.

Lemma groupStep_cases (env : ProtoEnv) (m : gmap string (list Cookie)) (c : Cookie) :
  groupStep env (Some m) c
  = match m !! groupKey c with
    | Some g => Some (<[groupKey c := (g ++ [c])%list]> m)
    | None => if decide (shadowed env (groupKey c)) then None
              else Some (<[groupKey c := [c]]> m)
    end.
Proof.
  unfold groupStep, getProperty. simpl.
  generalize (groupKey c) as key. intros key.
  destruct (m !! key) as [g|]; [done|].
  destruct (decide (shadowed env key)) as [Hs|Hs]; unfold shadowed, inherited in Hs.
  - destruct (decide (key = "__proto__")) as [Hp|Hp];
      [by rewrite bool_decide_true by done|].
    rewrite bool_decide_false by done.
    destruct (decide (key ∈ builtinMethods)) as [Hb|Hb];
      [by rewrite bool_decide_true by done|].
    rewrite bool_decide_false by done.
    destruct (inheritedString env key) as [s|]; [|tauto]. simpl.
    rewrite bool_decide_false by tauto. done.
  - rewrite !bool_decide_false by tauto.
    destruct (inheritedString env key) as [s|]; [|done]. simpl.
    destruct (decide (s = "")) as [Hempty|Hempty]; [by rewrite bool_decide_true by done|].
    destruct Hs. by right.
Qed.

Lemma groupStep_owned (env : ProtoEnv) (m m' : gmap string (list Cookie)) (c : Cookie) :
  (∀ k, is_Some (m !! k) → ¬ shadowed env k) →
  groupStep env (Some m) c = Some m' →
  ∀ k, is_Some (m' !! k) → ¬ shadowed env k.
Proof.
  intros Hinv. rewrite groupStep_cases.
  destruct (m !! groupKey c) as [g|] eqn:He.
  - intros [= <-] k. rewrite lookup_insert. case_decide as Hk; [|apply Hinv].
    intros _. apply Hinv. rewrite <-Hk, He. eauto.
  - case_decide as Hs; [done|]. intros [= <-] k. rewrite lookup_insert.
    case_decide as Hk; [|apply Hinv]. intros _. by rewrite <-Hk.
Qed.

Lemma groupedCookies_throws (env : ProtoEnv) (m : gmap string (list Cookie))
    (l : list Cookie) :
  (∀ k, is_Some (m !! k) → ¬ shadowed env k) →
  Exists (λ c, shadowed env (groupKey c)) l →
  foldl (groupStep env) (Some m) l = None.
Proof.
  intros Hinv Hex. revert m Hinv.
  induction Hex as [c l Hc|c l Hex IH]; intros m Hinv; cbn [foldl].
  - rewrite groupStep_cases. destruct (m !! groupKey c) as [g|] eqn:He.
    + destruct (Hinv (groupKey c)); [by rewrite He|done].
    + rewrite decide_True by done. apply foldl_groupStep_None.
  - destruct (groupStep env (Some m) c) as [m'|] eqn:Hstep;
      [|apply foldl_groupStep_None].
    apply IH. by eapply groupStep_owned.
Qed.

Lemma groupedCookies_plain (env : ProtoEnv) (m : gmap string (list Cookie))
    (l : list Cookie) :
  Forall (λ c, ¬ shadowed env (groupKey c)) l →
  foldl (groupStep env) (Some m) l
  = Some (foldl (λ acc cookie,
                   <[groupKey cookie
                     := (default [] (acc !! groupKey cookie) ++ [cookie])%list]> acc)
                m l).
Proof.
  intros Hall. revert m. induction Hall as [|c l Hc _ IH]; intros m; [done|].
  cbn [foldl]. rewrite groupStep_cases.
  destruct (m !! groupKey c) as [g|]; [|rewrite decide_False by done]; apply IH.
Qed.

Lemma groupedCookies_sections (env : ProtoEnv) (sorted : list Cookie) :
  Forall (λ c, ¬ shadowed env (cookie_rarity c)) sorted →
  ∃ groups,
    groupedCookies env sorted = Some groups
    ∧ ∀ r, groups !! r
           = match filter (λ c, (cookie_rarity c = r ∧ r ≠ "")
                                ∨ (cookie_rarity c = "" ∧ r = "Common")) sorted with
             | [] => None
             | g => Some g
             end.
Proof.
  intros Hall. eexists. split.
  - apply groupedCookies_plain. eapply Forall_impl; [exact Hall|].
    intros c. by rewrite shadowed_rarity.
  - intros r. rewrite groupedCookies_fold, lookup_empty. simpl.
    rewrite (list_filter_iff _ (λ c, (cookie_rarity c = r ∧ r ≠ "")
                                     ∨ (cookie_rarity c = "" ∧ r = "Common")))
      by (intros c; apply groupKey_spec).
    by destruct (filter _ sorted).
Qed.

(** X18. The rarity sections.  When no cookie has a rarity whose name
    yields a truthy inherited value, the group under a rarity name holds
    exactly the sorted cookies with that rarity, in their sorted order,
    where a cookie with an empty rarity counts as "Common"; a name no
    cookie has gets no group, so no group is empty.  When some cookie
    has such a rarity the evaluation throws.  On a page where nothing
    was assigned to the inherited properties these names are the names
    of the inherited properties. *)
Theorem groupedCookies_groups (env : ProtoEnv) (sorted : list Cookie) :
  (Forall (λ c, ¬ shadowed env (cookie_rarity c)) sorted →
   ∃ groups,
     groupedCookies env sorted = Some groups
     ∧ ∀ r, groups !! r
            = match filter (λ c, (cookie_rarity c = r ∧ r ≠ "")
                                 ∨ (cookie_rarity c = "" ∧ r = "Common")) sorted with
              | [] => None
              | g => Some g
              end)
  ∧ (Exists (λ c, shadowed env (cookie_rarity c)) sorted →
     groupedCookies env sorted = None)
  ∧ (∀ key, shadowed freshEnv key ↔ key = "__proto__" ∨ key ∈ builtinMethods).
Proof.
  split_and!.
  - apply groupedCookies_sections.
  - intros Hex. apply groupedCookies_throws.
    + intros k. rewrite lookup_empty. by intros [? ?].
    + eapply Exists_impl; [exact Hex|]. intros c. by rewrite shadowed_rarity.
  - intros key. unfold shadowed, inherited, inheritedString.
    repeat case_bool_decide; simpl; tauto.
Qed.

Lemma groupedCookies_groups_witness :
  let cookie id r :=
    mkCookie id (mkCookieData id "" "" "" r "" "" "" "" "" [] [] NoTimestamp None) in
  let sorted := [cookie "a" "Epic"; cookie "b" ""; cookie "c" "Common"; cookie "d" "Epic"] in
  (∃ groups, groupedCookies freshEnv sorted = Some groups
             ∧ groups !! "Epic" = Some [cookie "a" "Epic"; cookie "d" "Epic"]
             ∧ groups !! "Common" = Some [cookie "b" ""; cookie "c" "Common"]
             ∧ groups !! "" = None)
  ∧ groupedCookies freshEnv (sorted ++ [cookie "e" "constructor"]) = None.
Proof.
  intros cookie sorted.
  destruct (groupedCookies_groups freshEnv sorted) as (Hgroups & _ & _).
  destruct (groupedCookies_groups freshEnv (sorted ++ [cookie "e" "constructor"])%list)
    as (_ & Hthrow & _).
  split.
  - destruct Hgroups as (groups & Hrun & Hsec).
    { apply Forall_forall. intros c Hc.
      apply (bool_decide_unpack (¬ shadowed freshEnv (cookie_rarity c))).
      repeat (apply elem_of_cons in Hc as [->|Hc]; [vm_compute; exact I|]).
      by apply elem_of_nil in Hc. }
    exists groups. split; [exact Hrun|]. rewrite !Hsec. split_and!; reflexivity.
  - apply Hthrow. apply Exists_exists. exists (cookie "e" "constructor").
    split; [apply elem_of_app; right; by left|]. left. right. by left.
Defined.

(** ** Sort buttons and the modal stack *)

(** X19. A click on the sort button of the current option flips the
    direction, so two clicks restore the sort; a click on the button of
    another option selects it ascending. *)
Theorem handleSort_toggles (option : SortOption) (prev : Sort) :
  handleSort (sort_option prev) (handleSort (sort_option prev) prev) = prev
  ∧ direction (handleSort (sort_option prev) prev) ≠ direction prev
  ∧ (sort_option prev ≠ option → handleSort option prev = mkSort option Asc).
Proof.
  destruct prev as [o d]. split_and!.
  - by destruct o, d.
  - by destruct o, d.
  - by destruct o, option, d.
Qed.

(** X20. Opening a modal and closing it restores the modal stack, the
    modal shown after opening is the one opened, and closing with no
    modal open does nothing. *)
Theorem modal_stack_round_trip {D} (type : string) (data : D) (prev : list (string * D)) :
  closeModal (openModal type data prev) = prev
  ∧ currentModal (openModal type data prev) = Some (type, data)
  ∧ currentModal (closeModal (openModal type data prev)) = currentModal prev
  ∧ closeModal ([] : list (string * D)) = [].
Proof.
  unfold closeModal, openModal, currentModal. rewrite length_app. simpl.
  replace (length prev + 1 - 1)%nat with (length prev) by lia.
  rewrite take_app_length. split_and!; try done.
  rewrite lookup_app_r by lia. by replace (length prev - length prev)%nat with 0%nat by lia.
Qed.

(** ** Deleting power-ups and costumes *)

(** X21. Deleting a power-up writes no tier list: it clears the
    [powerUpId] of the first cookie that refers to the power-up, writing
    back every other field of that cookie as it was, and then deletes
    the power-up document; with no cookie referring to it only the
    deletion is issued. *)
Theorem handleDelete_powerup_unlinks_first
    (pvpList pveList : TierList) (cookies : list Cookie) (id : string) :
  let ws := handleDelete true pvpList pveList cookies "powerups" id in
  (∀ i c, list_find (λ c, powerUpId (cookie_data c) = Some id) cookies = Some (i, c) →
          cookie_id c ≠ "" →
          ∃ c', ws = [SetDocMerge "cookies" (cookie_id c) (CookiePayload c');
                      DeleteDoc "powerups" id]
                ∧ cookie_id c' = cookie_id c
                ∧ powerUpId (cookie_data c') = Some ""
                ∧ name (cookie_data c') = name (cookie_data c)
                ∧ avatarUrl (cookie_data c') = avatarUrl (cookie_data c)
                ∧ spriteUrl (cookie_data c') = spriteUrl (cookie_data c)
                ∧ headIconUrl (cookie_data c') = headIconUrl (cookie_data c)
                ∧ rarity (cookie_data c') = rarity (cookie_data c)
                ∧ role (cookie_data c') = role (cookie_data c)
                ∧ position (cookie_data c') = position (cookie_data c)
                ∧ skillName (cookie_data c') = skillName (cookie_data c)
                ∧ skillDescription (cookie_data c') = skillDescription (cookie_data c)
                ∧ skillUrl (cookie_data c') = skillUrl (cookie_data c)
                ∧ elements (cookie_data c') = elements (cookie_data c)
                ∧ costumes (cookie_data c') = costumes (cookie_data c)
                ∧ createdAt (cookie_data c') = createdAt (cookie_data c))
  ∧ (Forall (λ c, powerUpId (cookie_data c) ≠ Some id) cookies →
     ws = [DeleteDoc "powerups" id])
  ∧ handleDelete false pvpList pveList cookies "powerups" id = [].
Proof.
  intros ws. unfold ws, handleDelete. simpl. split_and!; [| |done].
  - intros i c Hfind Hid. rewrite Hfind. unfold saveData.
    rewrite bool_decide_false by done. simpl. eexists. split; [reflexivity|]. done.
  - intros Hnone.
    assert (list_find (λ c, powerUpId (cookie_data c) = Some id) cookies = None) as ->
      by (by apply list_find_None).
    done.
Qed.

Lemma handleDelete_powerup_unlinks_first_witness :
  let cookie id p :=
    mkCookie id
      (mkCookieData id "avatar.png" "sprite.gif" "head.png" "Epic" "Magic" "Middle"
         "Skill" "Description" "skill.png" ["Fire"; "Light"]
         [mkCostume "Party" "Rare" "costume.png" "costume.gif"] (StoreTimestamp 42) p) in
  handleDelete true defaultPvpTierList defaultPveTierList
    [cookie "a" None; cookie "b" (Some "p1"); cookie "c" (Some "p1")] "powerups" "p1"
  = [SetDocMerge "cookies" "b" (CookiePayload (cookie "b" (Some "")));
     DeleteDoc "powerups" "p1"].
Proof.
  intros cookie.
  destruct (handleDelete_powerup_unlinks_first defaultPvpTierList defaultPveTierList
              [cookie "a" None; cookie "b" (Some "p1"); cookie "c" (Some "p1")] "p1")
    as (Hfirst & _ & _).
  destruct (Hfirst 1%nat (cookie "b" (Some "p1")) eq_refl) as (c' & _ & _); [done|].
  reflexivity.
Defined.

(** X22. Deleting a costume rewrites the parent cookie (the first cookie
    with the given identifier) with every costume of that name removed:
    the costumes of other names stay in order and no other field of the
    cookie changes.  An unknown parent, or no database handle, writes
    nothing. *)
Theorem handleDeleteCostume_removes_by_name
    (cookies : list Cookie) (costumeName cookieId : string) :
  (∀ i parent, list_find (λ c, cookie_id c = cookieId) cookies = Some (i, parent) →
               cookieId ≠ "" →
               ∃ c', handleDeleteCostume true cookies costumeName cookieId
                     = [SetDocMerge "cookies" cookieId (CookiePayload c')]
                     ∧ cookie_id c' = cookieId
                     ∧ costumes (cookie_data c')
                       = filter (λ c, costume_name c ≠ costumeName)
                                (costumes (cookie_data parent))
                     ∧ Forall (λ c, costume_name c ≠ costumeName) (costumes (cookie_data c'))
                     ∧ withCostumes c' (costumes (cookie_data parent)) = parent)
  ∧ (Forall (λ c, cookie_id c ≠ cookieId) cookies →
     handleDeleteCostume true cookies costumeName cookieId = [])
  ∧ handleDeleteCostume false cookies costumeName cookieId = [].
Proof.
  unfold handleDeleteCostume. split_and!.
  - intros i parent Hfind Hid. rewrite Hfind.
    pose proof Hfind as (_ & Hpid & _)%list_find_Some.
    unfold saveData. rewrite Hpid, bool_decide_false by done.
    eexists. split; [reflexivity|]. split_and!.
    + done.
    + done.
    + simpl. apply Forall_forall. intros c Hc. by apply list_elem_of_filter in Hc as [? _].
    + by destruct parent as [pid []].
  - intros Hnone.
    assert (list_find (λ c, cookie_id c = cookieId) cookies = None) as ->
      by (by apply list_find_None).
    done.
  - by destruct (list_find _ cookies) as [[i parent]|].
Qed.

Lemma handleDeleteCostume_removes_by_name_witness :
  let skin n := mkCostume n "Rare" "" "" in
  let parent := mkCookie "a" (mkCookieData "GingerBrave" "" "" "" "Common" "" "" "" "" ""
                                [] [skin "Hero"; skin "Pirate"; skin "Hero"]
                                NoTimestamp None) in
  handleDeleteCostume true [parent] "Hero" "a"
  = [SetDocMerge "cookies" "a" (CookiePayload (withCostumes parent [skin "Pirate"]))].
Proof.
  intros skin parent.
  destruct (handleDeleteCostume_removes_by_name [parent] "Hero" "a") as (Hfound & _ & _).
  destruct (Hfound 0%nat parent eq_refl) as (c' & _ & _); [done|].
  reflexivity.
Defined.

(** ** The attribute registry *)

Lemma notAfter_createdTime (a b : AttributeDoc) :
  notAfter (λ a b, js_sub (Fin (createdTime (attr_createdAt a)))
                          (Fin (createdTime (attr_createdAt b)))) a b
  ↔ (createdTime (attr_createdAt a) ≤ createdTime (attr_createdAt b))%Z.
Proof. unfold notAfter. simpl. rewrite bool_decide_eq_false. lia. Qed.

(** X23. An attribute list is kept in creation order: the snapshot
    handler rearranges the delivered entries by ascending creation time,
    an entry without a store timestamp counting as time 0, and entries
    of equal time keep the order in which they were delivered. *)
Theorem onAttributesSnapshot_creation_order (data : list AttributeDoc) :
  onAttributesSnapshot data ≡ₚ data
  ∧ StronglySorted (λ a b, (createdTime (attr_createdAt a)
                            ≤ createdTime (attr_createdAt b))%Z)
                   (onAttributesSnapshot data)
  ∧ (∀ t : Z, filter (λ a, createdTime (attr_createdAt a) = t) (onAttributesSnapshot data)
              = filter (λ a, createdTime (attr_createdAt a) = t) data)
  ∧ createdTime NoTimestamp = 0%Z.
Proof.
  unfold onAttributesSnapshot. split_and!.
  - apply js_sort_perm.
  - eapply StronglySorted_weaken; [|apply js_sort_sorted].
    + intros a b. apply notAfter_createdTime.
    + intros a b. rewrite !notAfter_createdTime. lia.
    + intros a b c. rewrite !notAfter_createdTime. lia.
  - intros t. apply js_sort_stable. intros a b Ha Hb.
    apply notAfter_createdTime. lia.
  - done.
Qed.

(** X24. In the cookie form, unticking an element removes every
    occurrence of it and keeps the other elements in order; ticking
    appends it; ticking an element that was not selected and unticking
    it again restores the selection. *)
Theorem handleElementChange_toggle (value : string) (elements : list string) :
  (value ∉ handleElementChange value false elements)
  ∧ (∀ el, el ≠ value →
           filter (λ x, x = el) (handleElementChange value false elements)
           = filter (λ x, x = el) elements)
  ∧ handleElementChange value true elements = (elements ++ [value])%list
  ∧ (value ∉ elements →
     handleElementChange value false (handleElementChange value true elements) = elements).
Proof.
  unfold handleElementChange. split_and!.
  - intros Hin. by apply list_elem_of_filter in Hin as [Hne _].
  - intros el Hne. rewrite list_filter_filter. apply list_filter_iff.
    intros x. split; [tauto|]. intros ->. done.
  - done.
  - intros Hnot. rewrite filter_app, filter_cons_False, filter_nil, app_nil_r
      by (intros ?; done).
    induction elements as [|x els IH]; [done|].
    apply not_elem_of_cons in Hnot as [Hx Hels].
    rewrite filter_cons_True by done. by rewrite IH.
Qed.

Lemma handleElementChange_toggle_witness :
  handleElementChange "Fire" false (handleElementChange "Fire" true ["Ice"; "Wind"])
  = ["Ice"; "Wind"].
Proof.
  destruct (handleElementChange_toggle "Fire" ["Ice"; "Wind"]) as (_ & _ & _ & Hback).
  apply Hback. intros Hin.
  repeat (apply elem_of_cons in Hin as [Hin|Hin]; [discriminate|]).
  by apply elem_of_nil in Hin.
Defined.

(** X25. The image of an attribute: for a known attribute kind whose
    list has no two entries of one name, every listed entry resolves to
    its own image; a name not in the list, and an unknown kind, resolve
    to nothing. *)
Theorem getAttributeImageUrl_resolves (attributes : Attributes) (type name : string) :
  (NoDup (attr_name <$> attributeList attributes type) →
   ∀ a, a ∈ attributeList attributes type →
        getAttributeImageUrl attributes type (attr_name a) = imageUrl a)
  ∧ (Forall (λ a, attr_name a ≠ name) (attributeList attributes type) →
     getAttributeImageUrl attributes type name = None)
  ∧ (type ∉ ["rarity"; "costumeRarity"; "role"; "element"; "position"; "powerUpType"] →
     getAttributeImageUrl attributes type name = None).
Proof.
  unfold getAttributeImageUrl. split_and!.
  - intros Hnd a Ha. apply list_elem_of_lookup in Ha as [i Hi].
    destruct (list_find (λ a', attr_name a' = attr_name a) (attributeList attributes type))
      as [[j b]|] eqn:Hfind.
    + apply list_find_Some in Hfind as (Hj & Hname & _). simpl.
      assert (i = j) as ->.
      { apply (NoDup_lookup _ _ _ (attr_name a) Hnd).
        - by rewrite list_lookup_fmap, Hi.
        - by rewrite list_lookup_fmap, Hj, <-Hname. }
      congruence.
    + apply list_find_None in Hfind. rewrite Forall_forall in Hfind.
      destruct (Hfind a); [by eapply list_elem_of_lookup_2|done].
  - intros Hnone.
    assert (list_find (λ a, attr_name a = name) (attributeList attributes type) = None)
      as -> by (by apply list_find_None).
    done.
  - intros Hunknown.
    assert (attributeList attributes type = []) as ->; [|done].
    rewrite !not_elem_of_cons in Hunknown.
    destruct Hunknown as (H1 & H2 & H3 & H4 & H5 & H6 & _).
    unfold attributeList.
    repeat (case_match; try done).
Qed.

Lemma getAttributeImageUrl_resolves_witness :
  let attributes := mkAttributes
                      [mkAttribute "r1" "Common" (Some "common.png") false;
                       mkAttribute "r2" "Epic" (Some "epic.png") true]
                      [] [] [] [] [] in
  getAttributeImageUrl attributes "rarity" "Epic" = Some "epic.png"
  ∧ getAttributeImageUrl attributes "rarity" "Rare" = None
  ∧ getAttributeImageUrl attributes "colour" "Epic" = None.
Proof.
  intros attributes.
  destruct (getAttributeImageUrl_resolves attributes "rarity" "Rare") as (Hown & Hnone & _).
  destruct (getAttributeImageUrl_resolves attributes "colour" "Epic") as (_ & _ & Hkind).
  assert (NoDup (attr_name <$> attributeList attributes "rarity")) as Hnd.
  { apply (bool_decide_unpack (NoDup (attr_name <$> attributeList attributes "rarity"))).
    vm_compute. exact I. }
  split_and!.
  - apply (Hown Hnd (mkAttribute "r2" "Epic" (Some "epic.png") true)).
    right. by left.
  - apply Hnone. repeat constructor; discriminate.
  - apply Hkind. intros Hin.
    repeat (apply elem_of_cons in Hin as [Hin|Hin]; [discriminate|]).
    by apply elem_of_nil in Hin.
Defined.

(** ** Power-up references after a deletion *)

(** X26. When cookie identifiers are distinct and at most one cookie
    refers to a power-up, then once the writes of deleting that power-up
    are applied no cookie refers to it any more, and the cookies are the
    same documents as before. *)
Theorem powerup_deletion_leaves_no_reference
    (pvpList pveList : TierList) (cookies : list Cookie) (id : string) :
  id ≠ "" →
  Forall (λ c, cookie_id c ≠ "") cookies →
  NoDup (cookie_id <$> cookies) →
  (∀ i j ci cj, cookies !! i = Some ci → cookies !! j = Some cj →
                powerUpId (cookie_data ci) = Some id →
                powerUpId (cookie_data cj) = Some id → i = j) →
  let ws := handleDelete true pvpList pveList cookies "powerups" id in
  Forall (λ c, powerUpId (cookie_data c) ≠ Some id) (applyCookieWrites cookies ws)
  ∧ cookie_id <$> applyCookieWrites cookies ws = cookie_id <$> cookies.
Proof.
  intros Hid Hids Hnd Huniq ws. unfold ws, handleDelete. simpl.
  destruct (list_find (λ c, powerUpId (cookie_data c) = Some id) cookies)
    as [[i c]|] eqn:Hfind.
  - apply list_find_Some in Hfind as (Hi & Hc & _).
    assert (cookie_id c ≠ "") as Hcid.
    { rewrite Forall_forall in Hids. apply Hids. by eapply list_elem_of_lookup_2. }
    unfold saveData. rewrite bool_decide_false by done.
    unfold applyCookieWrites. simpl. split.
    + apply Forall_fmap, Forall_lookup. intros j x Hj. simpl.
      case_bool_decide as Hsame; simpl.
      * intros [= Heq]. by apply Hid.
      * intros Hx. apply Hsame.
        by rewrite (Huniq j i x c Hj Hi Hx Hc) in Hj; simplify_eq.
    + rewrite <-list_fmap_compose. apply list_fmap_ext. intros j x Hj. simpl.
      by case_bool_decide.
  - apply list_find_None in Hfind. unfold applyCookieWrites. simpl. split; [|done].
    done.
Qed.

Lemma powerup_deletion_leaves_no_reference_witness :
  let cookie id p :=
    mkCookie id (mkCookieData id "" "" "" "Epic" "" "" "" "" "" [] [] NoTimestamp p) in
  let cookies := [cookie "a" None; cookie "b" (Some "p1"); cookie "c" (Some "p2")] in
  applyCookieWrites cookies
    (handleDelete true defaultPvpTierList defaultPveTierList cookies "powerups" "p1")
  = [cookie "a" None; cookie "b" (Some ""); cookie "c" (Some "p2")].
Proof.
  intros cookie cookies.
  assert (Forall (λ c, cookie_id c ≠ "") cookies) as Hids
    by (repeat constructor; discriminate).
  assert (NoDup (cookie_id <$> cookies)) as Hnd.
  { apply (bool_decide_unpack (NoDup (cookie_id <$> cookies))). vm_compute. exact I. }
  assert (∀ i j ci cj, cookies !! i = Some ci → cookies !! j = Some cj →
                       powerUpId (cookie_data ci) = Some "p1" →
                       powerUpId (cookie_data cj) = Some "p1" → i = j) as Huniq.
  { intros [|[|[|i]]] [|[|[|j]]] ci cj Hi Hj Hci Hcj; simplify_eq/=; done. }
  destruct (powerup_deletion_leaves_no_reference defaultPvpTierList defaultPveTierList
              cookies "p1" ltac:(discriminate) Hids Hnd Huniq) as [_ _].
  reflexivity.
Defined.

(** ** The list view as a whole *)

(** X27. The cookie list view, for every sort and search string and
    whatever the engine's case folding is: the cookies to show are
    exactly the cookies whose folded name contains the folded search
    string.  When none of them has a rarity whose name yields a truthy
    inherited value, the sections are built, each such cookie is in the
    section of its rarity ("Common" for an empty rarity), and every
    section is a subsequence of the sorted list; when one of them has,
    building the sections throws. *)
Theorem list_view_shows_matches {host : HostStrings}
    (localeCompare : string → string → JsNumber) (sort : Sort)
    (rarities : list Attribute) (cookies : list Cookie) (searchTerm : string)
    (env : ProtoEnv) :
  let sorted := sortedCookies localeCompare sort rarities
                  (filteredCookies cookies searchTerm) in
  (∀ c, c ∈ sorted ↔ c ∈ cookies ∧ contains_ignore_case (cookie_name c) searchTerm)
  ∧ ((∀ c, c ∈ sorted → ¬ shadowed env (cookie_rarity c)) →
     ∃ groups,
       groupedCookies env sorted = Some groups
       ∧ (∀ c, c ∈ sorted
               ↔ ∃ g, groups !! (if bool_decide (cookie_rarity c = "") then "Common"
                                 else cookie_rarity c) = Some g
                      ∧ c ∈ g)
       ∧ (∀ r g, groups !! r = Some g → g `sublist_of` sorted))
  ∧ (∀ c, c ∈ sorted → shadowed env (cookie_rarity c) →
          groupedCookies env sorted = None).
Proof.
  intros sorted. split_and!.
  - intros c. unfold sorted, sortedCookies. rewrite js_sort_perm.
    unfold filteredCookies. rewrite list_elem_of_filter, matchesSearch_spec. tauto.
  - intros Hplain.
    destruct (groupedCookies_sections env sorted) as (groups & Hrun & Hgroup);
      [by apply Forall_forall|].
    exists groups. split_and!; [done|..].
    + intros c. rewrite Hgroup. fold (groupKey c). split.
      * intros Hc.
        assert (c ∈ filter (λ c', (cookie_rarity c' = groupKey c ∧ groupKey c ≠ "")
                                  ∨ (cookie_rarity c' = "" ∧ groupKey c = "Common"))
                           sorted) as Hin.
        { apply list_elem_of_filter. split; [|done]. by apply groupKey_spec. }
        destruct (filter _ sorted) as [|c' g] eqn:Hf; [by apply elem_of_nil in Hin|].
        by exists (c' :: g).
      * intros (g & Hg & Hin).
        destruct (filter _ sorted) as [|c' g'] eqn:Hf; [done|].
        injection Hg as <-. rewrite <-Hf in Hin.
        by apply list_elem_of_filter in Hin as [_ Hin].
    + intros r g. rewrite Hgroup. intros Hg.
      destruct (filter _ sorted) as [|c' g'] eqn:Hf; [done|].
      injection Hg as <-. rewrite <-Hf. apply sublist_filter.
  - intros c Hc Hs. apply groupedCookies_throws.
    + intros k. rewrite lookup_empty. by intros [? ?].
    + apply Exists_exists. exists c. split; [done|]. by apply shadowed_rarity.
Qed.

Lemma list_view_shows_matches_witness :
  let cookie n r :=
    mkCookie n (mkCookieData n "" "" "" r "" "" "" "" "" [] [] NoTimestamp None) in
  let cookies := [cookie "GingerBrave" "Common"; cookie "Orange" "Epic";
                  cookie "Brave Knight" "constructor"] in
  let shown term :=
    sortedCookies (λ _ _, Fin 0) (mkSort SortRarity Asc) [] (@filteredCookies asciiHost cookies term) in
  (∃ groups, groupedCookies freshEnv (shown "ge") = Some groups
             ∧ groups !! "Epic" = Some [cookie "Orange" "Epic"])
  ∧ groupedCookies freshEnv (shown "brave") = None.
Proof.
  intros cookie cookies shown.
  destruct (@list_view_shows_matches asciiHost (λ _ _, Fin 0) (mkSort SortRarity Asc) []
              cookies "ge" freshEnv) as (_ & Hplain & _).
  destruct (@list_view_shows_matches asciiHost (λ _ _, Fin 0) (mkSort SortRarity Asc) []
              cookies "brave" freshEnv) as (_ & _ & Hthrow).
  split.
  - destruct Hplain as (groups & Hrun & _ & _).
    { intros c Hc.
      apply (bool_decide_unpack (¬ shadowed freshEnv (cookie_rarity c))).
      vm_compute in Hc.
      repeat (apply elem_of_cons in Hc as [->|Hc]; [vm_compute; exact I|]).
      by apply elem_of_nil in Hc. }
    exists groups. split; [exact Hrun|].
    vm_compute in Hrun. injection Hrun as <-. reflexivity.
  - apply (Hthrow (cookie "Brave Knight" "constructor")).
    + apply (bool_decide_unpack (_ ∈ shown "brave")). vm_compute. exact I.
    + left. right. by left.
Defined.

(** ** Saving from the tier editor *)

(** X28. What the tier editor saves is what the next snapshot shows:
    the document handed to [onSave] carries the tiers as the editor
    reads them, and a snapshot delivering that document reads the same
    tiers back for the list it belongs to, whatever the store holds by
    then. *)
Theorem editor_save_round_trip
    (h h0 : list Tier) (o : TierListObj) (editorTiers : list nat) (ts : list Tier) :
  mapM (λ r, h !! r) editorTiers = Some ts →
  ∃ saved,
    editorSave h o editorTiers = Some saved
    ∧ let '(h', (pvpData, pveData)) := onTierListsSnapshot h0 [saved] in
      (obj_id o = "pvp-tier-list" → readTiers h' pvpData = Some ts)
      ∧ (obj_id o = "pve-tier-list" → readTiers h' pveData = Some ts).
Proof.
  intros Hread. unfold editorSave. rewrite Hread. simpl. eexists. split; [reflexivity|].
  unfold onTierListsSnapshot.
  destruct (loadTierList h0 "pvp-tier-list" _ defaultPvpObj) as [h1 pvpData] eqn:E1.
  destruct (loadTierList h1 "pve-tier-list" _ defaultPveObj) as [h2 pveData] eqn:E2.
  split; intros Hkey.
  - unfold loadTierList in E1, E2. simpl in E1, E2. rewrite Hkey in E1, E2.
    simpl in E1, E2. injection E1 as <- <-. injection E2 as <- <-.
    unfold readTiers. simpl.
    pose proof (read_fresh h0 ts []) as Hfresh. by rewrite app_nil_r in Hfresh.
  - unfold loadTierList in E1, E2. simpl in E1, E2. rewrite Hkey in E1, E2.
    simpl in E1, E2. injection E1 as <- <-. injection E2 as <- <-.
    unfold readTiers. simpl.
    pose proof (read_fresh h0 ts []) as Hfresh. by rewrite app_nil_r in Hfresh.
Qed.

Lemma editor_save_round_trip_witness :
  ∃ saved,
    editorSave storeAtLoad defaultPvpObj defaultTiersRef = Some saved
    ∧ readTiers (onTierListsSnapshot storeAtLoad [saved]).1
                (onTierListsSnapshot storeAtLoad [saved]).2.1 = Some defaultTiers.
Proof.
  destruct (editor_save_round_trip storeAtLoad storeAtLoad defaultPvpObj
              defaultTiersRef defaultTiers eq_refl) as (saved & Hsave & Hshow).
  exists saved. split; [exact Hsave|].
  destruct (onTierListsSnapshot storeAtLoad [saved]) as [h' [pvpData pveData]].
  simpl. by apply Hshow.
Defined.

(** ** The costume manager *)

(** X29. Whatever the engine's case folding is, the costume manager
    lists a costume exactly when it belongs to a cookie of the
    collection and its own folded name or that cookie's folded name
    contains the folded search string; with an empty search string it
    lists every costume of every cookie. *)
Theorem filteredCostumes_by_costume_or_cookie {host : HostStrings}
    (cookies : list Cookie) (searchTerm : string) :
  (∀ e, e ∈ filteredCostumes cookies searchTerm
        ↔ entry_cookie e ∈ cookies
          ∧ entry_costume e ∈ costumes (cookie_data (entry_cookie e))
          ∧ (contains_ignore_case (costume_name (entry_costume e)) searchTerm
             ∨ contains_ignore_case (cookie_name (entry_cookie e)) searchTerm))
  ∧ filteredCostumes cookies "" = allCostumes cookies
  ∧ length (allCostumes cookies)
    = sum_list ((λ c, length (costumes (cookie_data c))) <$> cookies).
Proof.
  split_and!.
  - intros e. unfold filteredCostumes, allCostumes.
    rewrite list_elem_of_filter, list_elem_of_bind, !matchesText_spec. split.
    + intros [Hm (c & He & Hc)]. apply list_elem_of_fmap in He as (k & -> & Hk). done.
    + intros (Hc & Hk & Hm). split; [done|]. exists (entry_cookie e). split; [|done].
      apply list_elem_of_fmap. exists (entry_costume e). split; [by destruct e|done].
  - unfold filteredCostumes. generalize (allCostumes cookies) as l.
    induction l as [|e l IH]; [done|].
    rewrite filter_cons_True; [by rewrite IH|].
    left. apply matchesText_empty.
  - unfold allCostumes. induction cookies as [|c cookies IH]; [done|].
    rewrite bind_cons, length_app, length_fmap, IH. done.
Qed.

Lemma compare_costume_rarity_asc
    (localeCompare : string → string → JsNumber) (costumeRarities : list Attribute)
    (a b : CostumeEntry) (za zb : Z) :
  indexOf (attr_name <$> costumeRarities) (costume_rarity (entry_costume a)) = Fin za →
  indexOf (attr_name <$> costumeRarities) (costume_rarity (entry_costume b)) = Fin zb →
  notAfter (compareCostumes localeCompare CostumeByRarity Asc costumeRarities) a b
  ↔ (za ≤ zb)%Z.
Proof.
  intros Ha Hb. unfold notAfter, compareCostumes, rarityRank, nullish.
  cbv zeta. cbn [default]. rewrite Ha, Hb.
  simpl. rewrite bool_decide_eq_false. lia.
Qed.

(** X30. The costume manager's sort rearranges the filtered costumes,
    whatever the option; by rarity ascending a costume stands before
    every costume whose rarity has a greater [indexOf] in the registry
    of costume rarities, so a costume of unregistered rarity (-1) stands
    before all registered ones. *)
Theorem sortedCostumes_rank_order
    (localeCompare : string → string → JsNumber) (option : CostumeSortOption)
    (d : SortDirection) (costumeRarities : list Attribute)
    (filtered : list CostumeEntry) :
  sortedCostumes localeCompare option d costumeRarities filtered ≡ₚ filtered
  ∧ (∀ i j a b za zb,
       sortedCostumes localeCompare CostumeByRarity Asc costumeRarities filtered !! i
       = Some a →
       sortedCostumes localeCompare CostumeByRarity Asc costumeRarities filtered !! j
       = Some b →
       indexOf (attr_name <$> costumeRarities) (costume_rarity (entry_costume a)) = Fin za →
       indexOf (attr_name <$> costumeRarities) (costume_rarity (entry_costume b)) = Fin zb →
       (za < zb)%Z → (i < j)%nat).
Proof.
  split; [apply js_sort_perm|].
  intros i j a b za zb Hi Hj Ha Hb Hlt.
  destruct (decide (i < j)%nat) as [|Hnlt]; [done|exfalso].
  assert (i ≠ j) as Hne.
  { intros ->. rewrite Hi in Hj. injection Hj as ->. rewrite Ha in Hb.
    injection Hb as ->. lia. }
  assert (notAfter (compareCostumes localeCompare CostumeByRarity Asc costumeRarities) b a)
    as Hba.
  { eapply (StronglySorted_lookup_lt _ _ j i); [|exact Hj|exact Hi|lia].
    apply js_sort_sorted.
    - intros x y.
      destruct (indexOf_spec (attr_name <$> costumeRarities)
                  (costume_rarity (entry_costume x))) as (zx & Hx & _),
               (indexOf_spec (attr_name <$> costumeRarities)
                  (costume_rarity (entry_costume y))) as (zy & Hy & _).
      rewrite (compare_costume_rarity_asc _ _ x y zx zy),
              (compare_costume_rarity_asc _ _ y x zy zx) by done. lia.
    - intros x y z.
      destruct (indexOf_spec (attr_name <$> costumeRarities)
                  (costume_rarity (entry_costume x))) as (zx & Hx & _),
               (indexOf_spec (attr_name <$> costumeRarities)
                  (costume_rarity (entry_costume y))) as (zy & Hy & _),
               (indexOf_spec (attr_name <$> costumeRarities)
                  (costume_rarity (entry_costume z))) as (zz & Hz & _).
      rewrite (compare_costume_rarity_asc _ _ x y zx zy),
              (compare_costume_rarity_asc _ _ y z zy zz),
              (compare_costume_rarity_asc _ _ x z zx zz) by done. lia. }
  rewrite (compare_costume_rarity_asc _ _ b a zb za) in Hba by done. lia.
Qed.

Lemma sortedCostumes_rank_order_witness :
  let registry := [mkAttribute "c1" "Rare" None false; mkAttribute "c2" "Epic" None false] in
  let owner := mkCookie "a" (mkCookieData "GingerBrave" "" "" "" "Common" "" "" "" "" ""
                               [] [] NoTimestamp None) in
  let entry n r := mkCostumeEntry (mkCostume n r "" "") owner in
  sortedCostumes (λ _ _, NaN) CostumeByRarity Asc registry
    [entry "Hero" "Epic"; entry "Pirate" "Rare"; entry "Ghost" "Spooky"]
  = [entry "Ghost" "Spooky"; entry "Pirate" "Rare"; entry "Hero" "Epic"]
  ∧ (0 < 1)%nat.
Proof.
  intros registry owner entry. split; [reflexivity|].
  destruct (sortedCostumes_rank_order (λ _ _, NaN) CostumeByRarity Asc registry
              [entry "Hero" "Epic"; entry "Pirate" "Rare"; entry "Ghost" "Spooky"])
    as [_ Horder].
  apply (Horder 0%nat 1%nat (entry "Ghost" "Spooky") (entry "Pirate" "Rare")
                (-1)%Z 0%Z); reflexivity.
Defined.
